(** * SpaceNet Rio chip-classification data preparation

    A shallow embedding of the notebook
    [notebooks/spacenet/SpaceNet - Rio - Chip Classification Data Prep.ipynb]:
    scene selection against the area of interest, per-scene label
    collections, the area-weighted training/validation split and the files
    the notebook writes.

    The notebook computes on Python floats and on shapely geometries.  Both
    are interfaces here: [Number] is instantiated with IEEE binary64
    (primitive floats) and with exact rationals, [Shapely] with axis-aligned
    boxes over either.  Statements that hold for every implementation are
    proved once for all of them. *)

From Stdlib Require Import List String Ascii Bool Arith ZArith QArith Lia.
From Stdlib Require Import Permutation Sorted Lqa.
From Stdlib Require Import PrimFloat Floats.
Import ListNotations.

Close Scope Q_scope.
Set Warnings "-register-all".
Open Scope string_scope.
Open Scope list_scope.

(** ** Python floats *)

(** The float operations the notebook uses.  [fzero] is the literal [0]
    the accumulator starts from, [ratio_literal] the literal [0.8];
    [fis_zero x] is [x == 0], [flt] is [<] and [fle] is [<=]. *)
Class Number : Type := {
  number : Type;
  fzero : number;
  ratio_literal : number;
  fadd : number -> number -> number;
  fdiv : number -> number -> number;
  fis_zero : number -> bool;
  flt : number -> number -> bool;
  fle : number -> number -> bool
}.

(** What the ordering proofs use of the comparisons and of [0 + c].  Every
    law holds of IEEE doubles, where a comparison with NaN is false and
    [0 + c] compares equal to [c], and of exact arithmetic. *)
Class NumberLaws (N : Number) : Prop := {
  flt_asym : forall a b, flt a b = true -> flt b a = false;
  flt_total : forall a b,
    fle a a = true -> fle b b = true -> flt a b = false -> fle b a = true;
  fle_trans : forall a b c, fle a b = true -> fle b c = true -> fle a c = true;
  fle_not_flt : forall a b, fle a b = true -> flt b a = false;
  fle_flt_trans : forall a b c,
    fle a b = true -> flt b c = true -> flt a c = true;
  fle_zero : fle fzero fzero = true;
  fadd_zero_le : forall a c, fle a c = true -> fle a (fadd fzero c) = true
}.

(** Adding a number that is not negative does not decrease a sum: exact
    arithmetic has it, and so has a correctly rounded sum. *)
Class MonotoneAdd (N : Number) : Prop := {
  fadd_mono : forall a c,
    fle fzero a = true -> fle fzero c = true -> fle a (fadd a c) = true
}.

(** ** JSON values, as [json.loads] returns them *)

Section Json.
Context {N : Number}.

(** A Python [dict] with string keys: one entry per key, iterated in the
    order of insertion. *)
Definition dict (V : Type) : Type := list (string * V).

Fixpoint dict_get {V} (d : dict V) (k : string) : option V :=
  match d with
  | [] => None
  | (k', v) :: d' => if String.eqb k' k then Some v else dict_get d' k
  end.

(** [d[k] = v]: an existing key keeps its place, a new one goes last. *)
Fixpoint dict_set {V} (d : dict V) (k : string) (v : V) : dict V :=
  match d with
  | [] => [(k, v)]
  | (k', v') :: d' =>
      if String.eqb k' k then (k', v) :: d' else (k', v') :: dict_set d' k v
  end.

Definition dict_keys {V} (d : dict V) : list string := map fst d.

Inductive json : Type :=
| JNull
| JBool (b : bool)
| JInt (z : Z)
| JFloat (x : number)
| JStr (s : string)
| JList (l : list json)
| JDict (d : list (string * json)).

End Json.

(** ** Exceptions and files *)

Inductive exn : Type :=
| KeyError (k : string)
| TypeError
| ZeroDivisionError
| ShapeError
| OSError.

Section Effects.
Context {N : Number}.

(** What [f.write] is given: the [json.dumps(fc, indent=4)] of a value, or
    a text. *)
Inductive content : Type :=
| JsonDump (j : json)
| Text (s : string).

(** The files written so far, oldest first. *)
Definition files : Type := list (string * content).

(** A cell either raises or returns, and either way leaves the files it has
    written. *)
Definition M (A : Type) : Type := files -> (exn + A) * files.

Definition ret {A} (a : A) : M A := fun fs => (inr a, fs).

Definition raise {A} (e : exn) : M A := fun fs => (inl e, fs).

Definition bind {A B} (c : M A) (k : A -> M B) : M B :=
  fun fs =>
    match c fs with
    | (inr a, fs') => k a fs'
    | (inl e, fs') => (inl e, fs')
    end.

(** [with open(path, 'w') as f: f.write(c)] *)
Definition write_file (path : string) (c : content) : M unit :=
  fun fs => (inr tt, fs ++ [(path, c)]).

End Effects.

Declare Scope py_scope.
Delimit Scope py_scope with py.
Notation "x <- c ;; k" := (bind c (fun x => k))
  (at level 61, c at next level, right associativity) : py_scope.
Notation "' p <- c ;; k" := (bind c (fun x => let p := x in k))
  (at level 61, p pattern, c at next level, right associativity) : py_scope.
Notation "c ;;; k" := (bind c (fun _ => k))
  (at level 61, right associativity) : py_scope.
Open Scope py_scope.

Section Loops.
Context {N : Number}.

(** [for x in l: body], threading the variables the body assigns. *)
Fixpoint for_each {A S} (l : list A) (body : A -> S -> M S) (s : S) : M S :=
  match l with
  | [] => ret s
  | x :: l' => s' <- body x s ;; for_each l' body s'
  end.

(** [d[k]] on a dict of the notebook's own. *)
Definition getitem {V} (d : dict V) (k : string) : M V :=
  match dict_get d k with
  | Some v => ret v
  | None => raise (KeyError k)
  end.

(** [j[k]] on a JSON value, [k] a string. *)
Definition json_getitem (j : json) (k : string) : M json :=
  match j with
  | JDict d => getitem d k
  | _ => raise TypeError
  end.

(** [j[k] = v] on a JSON value. *)
Definition json_setitem (j : json) (k : string) (v : json) : M json :=
  match j with
  | JDict d => ret (JDict (dict_set d k v))
  | _ => raise TypeError
  end.

(** [for x in j]: a list yields its items, a dict its keys, a string its
    characters; nothing else is iterable. *)
Definition json_iter (j : json) : M (list json) :=
  match j with
  | JList l => ret l
  | JDict d => ret (map JStr (dict_keys d))
  | JStr s => ret (map (fun c => JStr (String c EmptyString)) (list_ascii_of_string s))
  | _ => raise TypeError
  end.

End Loops.

(** ** [os.path] (posixpath) *)

(** [s.rfind(c)], [None] for [-1]. *)
Fixpoint rfind (c : ascii) (s : string) : option nat :=
  match s with
  | EmptyString => None
  | String a s' =>
      match rfind c s' with
      | Some i => Some (S i)
      | None => if Ascii.eqb a c then Some 0 else None
      end
  end.

(** [s[i:]] *)
Definition string_from (i : nat) (s : string) : string :=
  substring i (String.length s - i) s.

(** [os.path.basename(p)]: [p[p.rfind('/') + 1:]] *)
Definition basename (p : string) : string :=
  match rfind "/" p with
  | None => p
  | Some i => string_from (S i) p
  end.

(** [os.path.splitext(p)]: split at the last dot of the last component,
    unless only dots precede it there. *)
Definition splitext (p : string) : string * string :=
  match rfind "." p with
  | None => (p, "")
  | Some dotIndex =>
      let filenameIndex :=
        match rfind "/" p with None => 0 | Some sepIndex => S sepIndex end in
      if (filenameIndex <=? dotIndex)%nat
         && existsb (fun c => negb (Ascii.eqb c "."))
              (list_ascii_of_string
                 (substring filenameIndex (dotIndex - filenameIndex) p))
      then (substring 0 dotIndex p, string_from dotIndex p)
      else (p, "")
  end.

Definition startswith_slash (p : string) : bool :=
  match p with
  | String c _ => Ascii.eqb c "/"
  | EmptyString => false
  end.

Fixpoint endswith_slash (p : string) : bool :=
  match p with
  | EmptyString => false
  | String c EmptyString => Ascii.eqb c "/"
  | String _ p' => endswith_slash p'
  end.

(** [os.path.join(a, b)] *)
Definition path_join (a b : string) : string :=
  if startswith_slash b then b
  else if (String.length a =? 0)%nat || endswith_slash a then (a ++ b)%string
  else (a ++ "/" ++ b)%string.

(** ** shapely and rasterio *)

(** [rasterio]'s [BoundingBox]. *)
Record BoundingBox {N : Number} : Type := {
  left : number;
  bottom : number;
  right : number;
  top : number
}.

(** The geometry operations the notebook calls.  [shape] is [None] where
    [shapely.geometry.shape] raises. *)
Class Shapely (N : Number) : Type := {
  geom : Type;
  Polygon : list (number * number) -> geom;
  shape : json -> option geom;
  intersects : geom -> geom -> bool;
  intersection : geom -> geom -> geom;
  area : geom -> number
}.

Section Notebook.
Context {N : Number} {G : Shapely N}.

(** What a run reads: the area of interest (the shape of the first feature
    of the AOI file), the listing of the image bucket, the bounds
    [rasterio] reports for an image, and the parsed label file. *)
Record Inputs : Type := {
  aoi : geom;
  image_files : list string;
  ds_bounds : string -> BoundingBox;
  label_js : json
}.

Definition target_label_prefix : string :=
  "s3://raster-vision-spacenet/AOI_1_Rio/buildingLabels".

Definition processed_labels_dir : string :=
  "/opt/data/spacenet/rio/processed_labels/".

Definition training_scenes_csv : string :=
  "/opt/data/spacenet/rio/training_scenes.csv".

Definition val_scenes_csv : string := "/opt/data/spacenet/rio/val_scenes.csv".

(** *** Scene extents and the scenes that meet the AOI *)

Definition bounds_to_shape (bounds : BoundingBox) : geom :=
  Polygon [ (left bounds, bottom bounds);
            (left bounds, top bounds);
            (right bounds, top bounds);
            (right bounds, bottom bounds);
            (left bounds, bottom bounds) ].

(** [for img in image_files: image_to_extents[img] = bounds_to_shape(ds.bounds)] *)
Definition image_to_extents (I : Inputs) : dict geom :=
  fold_left
    (fun d img => dict_set d img (bounds_to_shape (ds_bounds I img)))
    (image_files I) [].

(** [for img in image_to_extents: if image_to_extents[img].intersects(aoi)]:
    the loop reads each key's own entry. *)
Definition intersecting_images (I : Inputs) : list string :=
  fold_left
    (fun acc entry =>
       if intersects (snd entry) (aoi I) then acc ++ [fst entry] else acc)
    (image_to_extents I) [].

(** *** Labels per scene *)

(** The body of the injection loop: both assignments go through
    [feature['properties']], which the feature keeps in place. *)
Definition add_class (feature : json) : M json :=
  properties <- json_getitem feature "properties" ;;
  properties <- json_setitem properties "class_id" (JInt 1) ;;
  feature <- json_setitem feature "properties" properties ;;
  properties <- json_getitem feature "properties" ;;
  properties <- json_setitem properties "class_name" (JStr "building") ;;
  json_setitem feature "properties" properties.

(** [for feature in label_js['features']: ...].  The features are changed
    in place, so afterwards the list under ['features'] holds them with
    their classes; a dict or a string there is iterated too, and left as it
    is. *)
Definition add_classes (label_js : json) : M json :=
  features <- json_getitem label_js "features" ;;
  items <- json_iter features ;;
  items <- for_each items
             (fun feature done =>
                feature <- add_class feature ;; ret (done ++ [feature]))
             [] ;;
  match features with
  | JList _ => json_setitem label_js "features" (JList items)
  | _ => ret label_js
  end.

(** The inner loop of the matching cell, for one image. *)
Definition match_features (label_js : json) (bbox : geom)
    (img : string) (image_to_features : dict (list json))
  : M (dict (list json)) :=
  features <- json_getitem label_js "features" ;;
  items <- json_iter features ;;
  for_each items
    (fun feature image_to_features =>
       geometry <- json_getitem feature "geometry" ;;
       match shape geometry with
       | None => raise ShapeError
       | Some g =>
           if intersects g bbox then
             found <- getitem image_to_features img ;;
             ret (dict_set image_to_features img (found ++ [feature]))
           else ret image_to_features
       end)
    image_to_features.

(** [image_to_features], from the label file as the injection left it. *)
Definition image_to_features (I : Inputs) (label_js : json)
  : M (dict (list json)) :=
  for_each (intersecting_images I)
    (fun img image_to_features =>
       let image_to_features := dict_set image_to_features img [] in
       bbox <- getitem (image_to_extents I) img ;;
       match_features label_js bbox img image_to_features)
    [].

Definition label_basename (img : string) : string :=
  fst (splitext (basename img)).

(** Where the label collection of [img] is written. *)
Definition label_file (img : string) : string :=
  path_join processed_labels_dir (label_basename img ++ ".geojson")%string.

(** One [fc] per key of [image_to_features], written as it is built. *)
Definition write_labels (label_js : json)
    (image_to_features : dict (list json)) : M unit :=
  for_each image_to_features
    (fun entry _ =>
       crs <- json_getitem label_js "crs" ;;
       let fc := JDict [ ("type", JStr "FeatureCollection");
                         ("crs", crs);
                         ("features", JList (snd entry)) ] in
       write_file (label_file (fst entry)) (JsonDump fc))
    tt.

(** The three label cells in the notebook's order. *)
Definition prepare_labels (I : Inputs) : M (dict (list json)) :=
  label_js <- add_classes (label_js I) ;;
  image_to_features <- image_to_features I label_js ;;
  write_labels label_js image_to_features ;;;
  ret image_to_features.

(** *** Training and validation scenes *)

(** [a / b] on floats. *)
Definition truediv (a b : number) : M number :=
  if fis_zero b then raise ZeroDivisionError else ret (fdiv a b).

(** [images_to_area]: the fraction of the AOI each scene covers. *)
Definition images_to_area (I : Inputs) : M (dict number) :=
  let aoi_area := area (aoi I) in
  for_each (intersecting_images I)
    (fun img images_to_area =>
       extent <- getitem (image_to_extents I) img ;;
       let area := area (intersection extent (aoi I)) in
       fraction <- truediv area aoi_area ;;
       ret (dict_set images_to_area img fraction))
    [].

(** A stable ascending sort on keys, by [<] alone: what [list.sort]
    guarantees.  Any stable sort returns this list when [<] orders the
    keys. *)
Fixpoint insert_by_key {A} (x : number * A) (l : list (number * A))
  : list (number * A) :=
  match l with
  | [] => [x]
  | y :: l' =>
      if flt (fst y) (fst x) then y :: insert_by_key x l' else x :: y :: l'
  end.

Definition sort_by_key {A} (l : list (number * A)) : list (number * A) :=
  fold_right insert_by_key [] l.

(** [reverse=True]: the list is reversed, sorted, and reversed again, so
    that equal keys keep their order. *)
Definition sort_reverse {A} (l : list (number * A)) : list (number * A) :=
  rev (sort_by_key (rev l)).

(** [sorted(l, reverse=True, key=key)]: each key is computed once, in
    order, before sorting. *)
Definition sorted_reverse (l : list string) (key : string -> M number)
  : M (list string) :=
  keyed <- for_each l
             (fun img keyed => k <- key img ;; ret (keyed ++ [(k, img)]))
             [] ;;
  ret (map snd (sort_reverse keyed)).

(** The variables the split loop assigns. *)
Record Split : Type := {
  train_imgs : list string;
  val_imgs : list string;
  train_area_covered : number
}.

(** The split cell from its second line on; the first is [ratio = 0.8]. *)
Definition split (ratio : number) (I : Inputs) : M Split :=
  images_to_area <- images_to_area I ;;
  order <- sorted_reverse (intersecting_images I)
             (fun img => getitem images_to_area img) ;;
  for_each order
    (fun img s =>
       if flt (train_area_covered s) ratio then
         fraction <- getitem images_to_area img ;;
         ret {| train_imgs := train_imgs s ++ [img];
                val_imgs := val_imgs s;
                train_area_covered := fadd (train_area_covered s) fraction |}
       else
         ret {| train_imgs := train_imgs s;
                val_imgs := val_imgs s ++ [img];
                train_area_covered := train_area_covered s |})
    {| train_imgs := []; val_imgs := []; train_area_covered := fzero |}.

(** *** The scene lists *)

Definition dquote : string := String "034" EmptyString.

Definition newline : string := String "010" EmptyString.

(** One row per scene: the image and its label file under
    [target_label_prefix], each quoted. *)
Definition csv_rows (imgs : list string) : list string :=
  map (fun img =>
         let labels_path :=
           path_join target_label_prefix (label_basename img ++ ".geojson")%string in
         (dquote ++ img ++ dquote ++ "," ++ dquote ++ labels_path ++ dquote)%string)
      imgs.

Definition write_scenes (path : string) (imgs : list string) : M unit :=
  write_file path (Text (String.concat newline (csv_rows imgs))).

(** The whole notebook, cell after cell: a raising cell ends the run and
    leaves the files written before it. *)
Definition notebook (I : Inputs) : M (dict (list json) * Split) :=
  image_to_features <- prepare_labels I ;;
  s <- split ratio_literal I ;;
  write_scenes training_scenes_csv (train_imgs s) ;;;
  write_scenes val_scenes_csv (val_imgs s) ;;;
  ret (image_to_features, s).

End Notebook.

(** ** Implementations of the interfaces *)

(** IEEE binary64, the floats of CPython. *)
Definition binary64 : Number := {|
  number := float;
  fzero := 0%float;
  ratio_literal := 0x1.999999999999ap-1%float;
  fadd := PrimFloat.add;
  fdiv := PrimFloat.div;
  fis_zero := fun x => PrimFloat.eqb x 0%float;
  flt := PrimFloat.ltb;
  fle := PrimFloat.leb
|}.

(** Exact rational arithmetic. *)
Definition rational : Number := {|
  number := Q;
  fzero := 0%Q;
  ratio_literal := (4 # 5)%Q;
  fadd := Qplus;
  fdiv := Qdiv;
  fis_zero := fun x => Qeq_bool x 0%Q;
  flt := fun a b => negb (Qle_bool b a);
  fle := Qle_bool
|}.

(** Axis-aligned boxes: a geometry is its vertex list and stands for the
    box that bounds it, which is the polygon itself when that is a
    rectangle with sides along the axes.  Boxes are closed, so boxes that
    only touch intersect, as in shapely. *)
Section Boxes.
Context (N : Number) (fsub fmul : number -> number -> number).

Definition fmin (a b : number) : number := if flt b a then b else a.

Definition fmax (a b : number) : number := if flt a b then b else a.

Definition box : Type := number * number * number * number.

Fixpoint bounding_box (vs : list (number * number)) : option box :=
  match vs with
  | [] => None
  | (x, y) :: vs' =>
      match bounding_box vs' with
      | None => Some (x, y, x, y)
      | Some (x0, y0, x1, y1) =>
          Some (fmin x x0, fmin y y0, fmax x x1, fmax y y1)
      end
  end.

Definition box_overlap (g h : list (number * number)) : option box :=
  match bounding_box g, bounding_box h with
  | Some (a0, b0, a1, b1), Some (c0, d0, c1, d1) =>
      let x0 := fmax a0 c0 in
      let y0 := fmax b0 d0 in
      let x1 := fmin a1 c1 in
      let y1 := fmin b1 d1 in
      if flt x1 x0 || flt y1 y0 then None else Some (x0, y0, x1, y1)
  | _, _ => None
  end.

Definition box_area (b : option box) : number :=
  match b with
  | Some (x0, y0, x1, y1) => fmul (fsub x1 x0) (fsub y1 y0)
  | None => fzero
  end.

Definition box_vertices (b : option box) : list (number * number) :=
  match b with
  | Some (x0, y0, x1, y1) => [(x0, y0); (x0, y1); (x1, y1); (x1, y0); (x0, y0)]
  | None => []
  end.

Definition json_point (j : json) : option (number * number) :=
  match j with
  | JList [JFloat x; JFloat y] => Some (x, y)
  | _ => None
  end.

Fixpoint json_ring (js : list json) : option (list (number * number)) :=
  match js with
  | [] => Some []
  | j :: js' =>
      match json_point j, json_ring js' with
      | Some p, Some ps => Some (p :: ps)
      | _, _ => None
      end
  end.

(** A GeoJSON polygon with one ring. *)
Definition box_shape (j : json) : option (list (number * number)) :=
  match j with
  | JDict d =>
      match dict_get d "type", dict_get d "coordinates" with
      | Some (JStr "Polygon"), Some (JList [JList ring]) => json_ring ring
      | _, _ => None
      end
  | _ => None
  end.

Definition boxes : Shapely N := {|
  geom := list (number * number);
  Polygon := fun vs => vs;
  shape := box_shape;
  intersects := fun g h =>
    match box_overlap g h with Some _ => true | None => false end;
  intersection := fun g h => box_vertices (box_overlap g h);
  area := fun g => box_area (bounding_box g)
|}.

End Boxes.

Definition float_boxes : Shapely binary64 :=
  boxes binary64 PrimFloat.sub PrimFloat.mul.

Definition rational_boxes : Shapely rational := boxes rational Qminus Qmult.

(** * What the statements speak of *)

Section Vocabulary.
Context {N : Number} {G : Shapely N}.
Implicit Types (I : Inputs) (img : string) (feature f : json).
Implicit Types (r acc : number) (l : list (number * string)).

(** The bounding polygon of a scene. *)
Definition extent I img : geom := bounds_to_shape (ds_bounds I img).

(** The fraction of the AOI a scene covers. *)
Definition coverage I img : number :=
  fdiv (area (intersection (extent I img) (aoi I))) (area (aoi I)).

(** The scenes with their coverage, in the order the split loop visits
    them. *)
Definition by_coverage I : list (number * string) :=
  sort_reverse (map (fun img => (coverage I img, img)) (intersecting_images I)).

(** The sum of the coverage fractions, added in the order of the listing
    as [sum] does, from [0]. *)
Definition fractions_sum I : number :=
  fold_left fadd (map (coverage I) (intersecting_images I)) fzero.

(** The walk in the words of the design, to be compared with the loop of
    the split cell: [accumulated] starts from the value given and is
    compared with the ratio before the scene at hand is counted. *)
Fixpoint greedy_walk (r accumulated : number) (scenes : list (number * string))
  : Split :=
  match scenes with
  | [] => {| train_imgs := []; val_imgs := [];
             train_area_covered := accumulated |}
  | (fraction, scene) :: rest =>
      if flt accumulated r then
        let w := greedy_walk r (fadd accumulated fraction) rest in
        {| train_imgs := scene :: train_imgs w; val_imgs := val_imgs w;
           train_area_covered := train_area_covered w |}
      else
        let w := greedy_walk r accumulated rest in
        {| train_imgs := train_imgs w; val_imgs := scene :: val_imgs w;
           train_area_covered := train_area_covered w |}
  end.

Definition is_nil {A} (l : list A) : bool :=
  match l with [] => true | _ => false end.

(** The sum the loop would reach if it counted every scene. *)
Definition total acc l : number := fold_left fadd (map fst l) acc.

(** A feature after the injection loop: its properties hold the two class
    entries, and nothing else of it has changed. *)
Definition classed feature : json :=
  match feature with
  | JDict fd =>
      match dict_get fd "properties" with
      | Some (JDict props) =>
          JDict (dict_set fd "properties"
                   (JDict (dict_set (dict_set props "class_id" (JInt 1))
                             "class_name" (JStr "building"))))
      | _ => feature
      end
  | _ => feature
  end.

(** [feature['geometry']] where the feature has one. *)
Definition geometry_of feature : option json :=
  match feature with
  | JDict fd => dict_get fd "geometry"
  | _ => None
  end.

(** [shape(feature['geometry']).intersects(bbox)] where it is defined. *)
Definition hits (bbox : geom) feature : bool :=
  match geometry_of feature with
  | Some gj => match shape gj with Some g => intersects g bbox | None => false end
  | None => false
  end.

(** A feature the notebook can process: an object whose properties are an
    object and whose geometry shapely reads. *)
Definition feature_ok feature : bool :=
  match feature with
  | JDict fd =>
      match dict_get fd "properties", dict_get fd "geometry" with
      | Some (JDict _), Some gj =>
          match shape gj with Some _ => true | None => false end
      | _, _ => false
      end
  | _ => false
  end.

(** A label file as the notebook expects it: an object with a [crs] and a
    list of such features. *)
Definition labels_ok (label_js : json) : bool :=
  match label_js with
  | JDict d =>
      match dict_get d "features", dict_get d "crs" with
      | Some (JList raw), Some _ => forallb feature_ok raw
      | _, _ => false
      end
  | _ => false
  end.

Definition raw_features (label_js : json) : list json :=
  match label_js with
  | JDict d => match dict_get d "features" with Some (JList raw) => raw | _ => [] end
  | _ => []
  end.

Definition crs_of (label_js : json) : json :=
  match label_js with
  | JDict d => match dict_get d "crs" with Some crs => crs | None => JNull end
  | _ => JNull
  end.

(** The features of the collection written for [img]. *)
Definition scene_features I img : list json :=
  filter (hits (extent I img)) (map classed (raw_features (label_js I))).

Definition feature_collection (crs : json) (features : list json) : json :=
  JDict [("type", JStr "FeatureCollection"); ("crs", crs);
         ("features", JList features)].

(** What the features need for the matching loop to run through. *)
Definition readable feature : bool :=
  match feature with
  | JDict fd =>
      match dict_get fd "geometry" with
      | Some gj => match shape gj with Some _ => true | None => false end
      | None => false
      end
  | _ => false
  end.

(** [feature['properties']] holds [class_id = 1] and
    [class_name = 'building']. *)
Definition has_class f : Prop :=
  exists fd props,
    f = JDict fd
    /\ dict_get fd "properties" = Some (JDict props)
    /\ dict_get props "class_id" = Some (JInt 1)
    /\ dict_get props "class_name" = Some (JStr "building").

(** [f'] is [f] but for the two class entries of its properties. *)
Definition differ_in_class_only (f f' : json) : Prop :=
  exists fd fd' props props',
    f = JDict fd /\ f' = JDict fd'
    /\ dict_keys fd' = dict_keys fd
    /\ (forall k, k <> "properties" -> dict_get fd' k = dict_get fd k)
    /\ dict_get fd "properties" = Some (JDict props)
    /\ dict_get fd' "properties" = Some (JDict props')
    /\ (forall k, k <> "class_id" -> k <> "class_name" ->
                  dict_get props' k = dict_get props k).

End Vocabulary.

(** ** Orders on keys *)

Section Orders.
Context {N : Number} {A : Type}.
Implicit Types (x y : number * A) (l : list (number * A)) (k : number).

(** Keys that compare with themselves: every float but NaN. *)
Definition ordered_keys l : Prop := Forall (fun x => fle (fst x) (fst x) = true) l.

Definition ascending x y : Prop := fle (fst x) (fst y) = true.

Definition descending x y : Prop := fle (fst y) (fst x) = true.

(** [tied k x]: the key of [x] is neither below nor above [k]. *)
Definition tied k x : bool := negb (flt k (fst x)) && negb (flt (fst x) k).

End Orders.

(** Neighbours in the walk that have the same coverage come in ascending
    order of their identifiers. *)
Fixpoint ties_ascending {N : Number} (identifier : string -> string)
    (l : list (number * string)) : bool :=
  match l with
  | x :: l' =>
      match l' with
      | y :: _ =>
          (if tied (fst x) y
           then String.leb (identifier (snd x)) (identifier (snd y))
           else true)
          && ties_ascending identifier l'
      | [] => true
      end
  | [] => true
  end.

(** ** The order of IEEE doubles *)

(** The order of the IEEE values other than NaN, read off a key: the class
    of the value, then its exponent, then its mantissa. *)
Definition sf_key (f : spec_float) : option (Z * Z * Z) :=
  match f with
  | S754_nan => None
  | S754_infinity s => Some (if s then (-2)%Z else 2%Z, 0%Z, 0%Z)
  | S754_zero _ => Some (0%Z, 0%Z, 0%Z)
  | S754_finite s m e =>
      Some (if s then ((-1)%Z, (- e)%Z, Z.neg m) else (1%Z, e, Z.pos m))
  end.

Definition lex_lt (a b : Z * Z * Z) : Prop :=
  let '(a1, a2, a3) := a in
  let '(b1, b2, b3) := b in
  (a1 < b1 \/ (a1 = b1 /\ (a2 < b2 \/ (a2 = b2 /\ a3 < b3))))%Z.

Definition lex_le (a b : Z * Z * Z) : Prop :=
  let '(a1, a2, a3) := a in
  let '(b1, b2, b3) := b in
  (a1 < b1 \/ (a1 = b1 /\ (a2 < b2 \/ (a2 = b2 /\ a3 <= b3))))%Z.

Definition on_keys (R : Z * Z * Z -> Z * Z * Z -> Prop) (a b : spec_float)
  : Prop :=
  match sf_key a, sf_key b with
  | Some ka, Some kb => R ka kb
  | _, _ => False
  end.

(** ** Concrete runs *)

Section Builders.
Context {N : Number} {G : Shapely N}.

Definition rect (l b r t : number) : BoundingBox :=
  {| left := l; bottom := b; right := r; top := t |}.

Definition ring (l b r t : number) : list (number * number) :=
  [(l, b); (l, t); (r, t); (r, b); (l, b)].

Definition polygon_json (l b r t : number) : json :=
  JDict [("type", JStr "Polygon");
         ("coordinates",
          JList [JList (map (fun p => JList [JFloat (fst p); JFloat (snd p)])
                          (ring l b r t))])].

Definition building (id : Z) (geometry : json) : json :=
  JDict [("type", JStr "Feature");
         ("properties", JDict [("OBJECTID", JInt id)]);
         ("geometry", geometry)].

Definition crs84 : json :=
  JDict [("type", JStr "name");
         ("properties", JDict [("name", JStr "urn:ogc:def:crs:OGC:1.3:CRS84")])].

Definition label_collection (features : list json) : json :=
  JDict [("type", JStr "FeatureCollection"); ("crs", crs84);
         ("features", JList features)].

(** A run over a listing of scenes with their bounds. *)
Definition run_on (region : geom) (scenes : dict BoundingBox) (labels : json)
  : Inputs :=
  {| aoi := region;
     image_files := dict_keys scenes;
     ds_bounds := fun img =>
       match dict_get scenes img with
       | Some bounds => bounds
       | None => rect fzero fzero fzero fzero
       end;
     label_js := labels |}.

End Builders.

Definition mosaic (name : string) : string :=
  ("s3://spacenet-dataset/AOI_1_Rio/srcData/mosaic_3band/" ++ name)%string.

Section FloatRuns.
#[local] Existing Instance binary64.
#[local] Existing Instance float_boxes.
Local Open Scope float_scope.

(** A 10 by 10 region of area 100. *)
Definition region : geom := ring 0 0 10 10.

(** One building inside A, one across the edge of A and B, none in C. *)
Definition rio_labels : json :=
  label_collection [ building 1 (polygon_json 1 1 2 2);
                     building 2 (polygon_json 4 4 6 6) ].

(** Scenes covering 0.5, 0.3 and 0.2 of the region. *)
Definition three_scenes : Inputs :=
  run_on region
    [ (mosaic "A.tif", rect 0 0 5 10);
      (mosaic "B.tif", rect 5 0 8 10);
      (mosaic "C.tif", rect 8 0 10 10) ]
    rio_labels.

(** Scenes covering a tenth of the region each. *)
Definition tenths : Inputs :=
  run_on region
    [ (mosaic "A.tif", rect 0 0 1 10);
      (mosaic "B.tif", rect 1 0 2 10);
      (mosaic "C.tif", rect 2 0 3 10) ]
    rio_labels.

(** One scene over the whole region. *)
Definition single_scene : Inputs :=
  run_on region [ (mosaic "X.tif", rect 0 0 10 10) ] rio_labels.

(** Scenes away from the region. *)
Definition disjoint_scenes : Inputs :=
  run_on region
    [ (mosaic "A.tif", rect 20 20 30 30);
      (mosaic "B.tif", rect 40 40 50 50) ]
    rio_labels.

(** Two halves of the region, listed in the order of their keys; the
    basenames are in the opposite order. *)
Definition tied_scenes : Inputs :=
  run_on region
    [ (mosaic "east/z.tif", rect 0 0 5 10);
      (mosaic "west/a.tif", rect 5 0 10 10) ]
    rio_labels.

(** The same halves, listed against the order of their keys. *)
Definition tied_unsorted : Inputs :=
  run_on region
    [ (mosaic "b.tif", rect 0 0 5 10);
      (mosaic "a.tif", rect 5 0 10 10) ]
    rio_labels.

(** Two scenes of one name in two folders. *)
Definition same_basename : Inputs :=
  run_on region
    [ (mosaic "2016/tile.tif", rect 0 0 5 10);
      (mosaic "2017/tile.tif", rect 5 0 10 10) ]
    rio_labels.

(** The second feature has no properties. *)
Definition labels_missing_properties : Inputs :=
  run_on region
    [ (mosaic "A.tif", rect 0 0 5 10) ]
    (label_collection
       [ building 1 (polygon_json 1 1 2 2);
         JDict [("type", JStr "Feature"); ("geometry", polygon_json 4 4 6 6)];
         building 3 (polygon_json 2 2 3 3) ]).

(** A label file without [crs]. *)
Definition labels_without_crs : Inputs :=
  run_on region
    [ (mosaic "A.tif", rect 0 0 5 10) ]
    (JDict [("type", JStr "FeatureCollection");
            ("features", JList [building 1 (polygon_json 1 1 2 2)])]).

(** A region without area: the segment from (0, 0) to (0, 10), which the
    scene touches. *)
Definition flat_region : Inputs :=
  run_on (ring 0 0 0 10)
    [ (mosaic "A.tif", rect 0 0 5 10) ]
    rio_labels.

(** The second feature has no geometry. *)
Definition labels_missing_geometry : Inputs :=
  run_on region
    [ (mosaic "A.tif", rect 0 0 5 10) ]
    (label_collection
       [ building 1 (polygon_json 1 1 2 2);
         JDict [("type", JStr "Feature"); ("properties", JDict [])] ]).

(** The three scenes of [three_scenes], listed smallest first. *)
Definition three_scenes_backwards : Inputs :=
  run_on region
    [ (mosaic "C.tif", rect 8 0 10 10);
      (mosaic "B.tif", rect 5 0 8 10);
      (mosaic "A.tif", rect 0 0 5 10) ]
    rio_labels.

(** A scene covering 0.1 of the region listed before one covering 0.9. *)
Definition dominant_listed_last : Inputs :=
  run_on region
    [ (mosaic "A.tif", rect 0 0 1 10);
      (mosaic "B.tif", rect 1 0 10 10) ]
    rio_labels.

(** Four strips side by side: two covering 0.05 each, one covering 0.7,
    and a sliver of width [2^-60] at the left edge of the region. *)
Definition rounding_strips : Inputs :=
  run_on region
    [ (mosaic "S1.tif", rect 0x1p-60 0 0.5 10);
      (mosaic "S2.tif", rect 0.5 0 1 10);
      (mosaic "S3.tif", rect 1 0 8 10);
      (mosaic "S4.tif", rect (-1) 0 0x1p-60 10) ]
    rio_labels.

End FloatRuns.

Section RationalRuns.
#[local] Existing Instance rational.
#[local] Existing Instance rational_boxes.
Local Open Scope Q_scope.

Definition tenths_exact : Inputs :=
  run_on (ring 0 0 10 10 : geom)
    [ (mosaic "A.tif", rect 0 0 1 10);
      (mosaic "B.tif", rect 1 0 2 10);
      (mosaic "C.tif", rect 2 0 3 10) ]
    (label_collection []).

End RationalRuns.

(** ** Cells that write nothing *)

(** A computation that leaves the files as they are and does not look at
    them. *)
Definition quiet {N : Number} {A} (c : M A) : Prop :=
  forall fs, c fs = (fst (c []), fs).

(** What the injection loop does with one feature: [None] where it goes
    through. *)
Definition injection_error {N : Number} (feature : json) : option exn :=
  match feature with
  | JDict fd =>
      match dict_get fd "properties" with
      | Some (JDict _) => None
      | Some _ => Some TypeError
      | None => Some (KeyError "properties")
      end
  | _ => Some TypeError
  end.

(** The label locator of a scene in the scene lists. *)
Definition labels_path (img : string) : string :=
  path_join target_label_prefix (label_basename img ++ ".geojson")%string.

(** The listing cell: the locator of each object key of the bucket. *)
Definition s3_uri (bucket key : string) : string :=
  ("s3://" ++ bucket ++ "/" ++ key)%string.

Definition list_image_files (bucket : string) (keys : list string)
  : list string :=
  map (s3_uri bucket) keys.

(** What the matching loop does with the geometry of one feature: [None]
    where shapely reads it. *)
Definition geometry_error {N : Number} {G : Shapely N} (feature : json)
  : option exn :=
  match feature with
  | JDict fd =>
      match dict_get fd "geometry" with
      | Some gj => match shape gj with Some _ => None | None => Some ShapeError end
      | None => Some (KeyError "geometry")
      end
  | _ => Some TypeError
  end.

(** ** The exact value of a double *)

(** The rational number a finite double stands for. *)
Definition exact_value (x : float) : option Q :=
  match Prim2SF x with
  | S754_zero _ => Some 0%Q
  | S754_finite s m e =>
      Some (inject_Z (if s then Z.neg m else Z.pos m) * Qpower 2 e)%Q
  | _ => None
  end.

(** The sum of finite doubles without rounding. *)
Fixpoint exact_sum (l : list float) : option Q :=
  match l with
  | [] => Some 0%Q
  | x :: l' =>
      match exact_value x, exact_sum l' with
      | Some q, Some q' => Some (Qred (q + q'))
      | _, _ => None
      end
  end.

Definition exact_sum_below (l : list float) (bound : Q) : Prop :=
  match exact_sum l with
  | Some q => (q < bound)%Q
  | None => False
  end.

(** ** A file system that refuses *)

(** [open(path, 'w')] raises [OSError] where the file system refuses the
    path, and nothing is written to it then. *)
Definition open_write {N : Number} (writable : string -> bool)
    (path : string) (c : content) : M unit :=
  if writable path then write_file path c else raise OSError.

(** The writing cell over such a file system. *)
Definition write_labels_on {N : Number} (writable : string -> bool)
    (label_js : json) (image_to_features : dict (list json)) : M unit :=
  for_each image_to_features
    (fun entry _ =>
       crs <- json_getitem label_js "crs" ;;
       let fc := JDict [ ("type", JStr "FeatureCollection");
                         ("crs", crs);
                         ("features", JList (snd entry)) ] in
       open_write writable (label_file (fst entry)) (JsonDump fc))
    tt.

(** The three label cells over such a file system. *)
Definition prepare_labels_on {N : Number} {G : Shapely N}
    (writable : string -> bool) (I : Inputs) : M (dict (list json)) :=
  label_js <- add_classes (label_js I) ;;
  image_to_features <- image_to_features I label_js ;;
  write_labels_on writable label_js image_to_features ;;;
  ret image_to_features.

(** A file system that refuses one path. *)
Definition all_but (refused : string) (path : string) : bool :=
  negb (String.eqb path refused).

(** * Properties *)

(** ** Dictionaries *)

Section DictFacts.
Context {V : Type}.
Implicit Types (d : dict V) (k : string) (v : V).

Lemma dict_get_set_same d k v : dict_get (dict_set d k v) k = Some v.
Proof.
  induction d as [|[k' v'] d IH]; simpl.
  - now rewrite String.eqb_refl.
  - destruct (String.eqb k' k) eqn:E; simpl; rewrite E; auto.
Qed.

Lemma dict_get_set_other d k k' v :
  k <> k' -> dict_get (dict_set d k v) k' = dict_get d k'.
Proof.
  intros Hne. induction d as [|[k0 v0] d IH]; simpl.
  - destruct (String.eqb k k') eqn:E; auto.
    apply String.eqb_eq in E. contradiction.
  - destruct (String.eqb k0 k) eqn:E; simpl.
    + apply String.eqb_eq in E. subst k0.
      destruct (String.eqb k k') eqn:E'; auto.
      apply String.eqb_eq in E'. contradiction.
    + now rewrite IH.
Qed.

Lemma dict_set_set d k v v' : dict_set (dict_set d k v) k v' = dict_set d k v'.
Proof.
  induction d as [|[k0 v0] d IH]; simpl.
  - now rewrite String.eqb_refl.
  - destruct (String.eqb k0 k) eqn:E; simpl; rewrite E; congruence.
Qed.

Lemma dict_get_In d k v : dict_get d k = Some v -> In (k, v) d.
Proof.
  induction d as [|[k0 v0] d IH]; simpl; [discriminate|].
  destruct (String.eqb k0 k) eqn:E.
  - apply String.eqb_eq in E. intros [= ->]. subst. now left.
  - auto.
Qed.

Lemma dict_get_None d k : ~ In k (dict_keys d) -> dict_get d k = None.
Proof.
  induction d as [|[k0 v0] d IH]; simpl; auto.
  intros Hn. destruct (String.eqb k0 k) eqn:E.
  - apply String.eqb_eq in E. tauto.
  - apply IH. tauto.
Qed.

Lemma dict_get_keys d k v : dict_get d k = Some v -> In k (dict_keys d).
Proof.
  intros H. apply dict_get_In in H. now apply (in_map fst) in H.
Qed.

(** A key the dict has not is appended. *)
Lemma dict_set_new d k v : ~ In k (dict_keys d) -> dict_set d k v = d ++ [(k, v)].
Proof.
  induction d as [|[k0 v0] d IH]; simpl; auto.
  intros Hn. destruct (String.eqb k0 k) eqn:E.
  - apply String.eqb_eq in E. tauto.
  - rewrite IH; tauto.
Qed.

(** The last entry is replaced where it stands. *)
Lemma dict_set_last d k v v' :
  ~ In k (dict_keys d) -> dict_set (d ++ [(k, v)]) k v' = d ++ [(k, v')].
Proof.
  intros Hn. rewrite <- (dict_set_new d k v Hn), dict_set_set.
  now apply dict_set_new.
Qed.

Lemma dict_keys_set d k v :
  dict_keys (dict_set d k v)
  = if in_dec string_dec k (dict_keys d) then dict_keys d else dict_keys d ++ [k].
Proof.
  unfold dict_keys. induction d as [|[k0 v0] d IH]; simpl.
  - reflexivity.
  - destruct (String.eqb k0 k) eqn:E; simpl.
    + apply String.eqb_eq in E. subst.
      destruct (string_dec k k); [|contradiction].
      destruct (in_dec string_dec k (map fst d)); reflexivity.
    + rewrite IH. destruct (string_dec k0 k) as [->|Hne].
      * now rewrite String.eqb_refl in E.
      * destruct (in_dec string_dec k (map fst d)); reflexivity.
Qed.

Lemma dict_set_keys_NoDup d k v :
  NoDup (dict_keys d) -> NoDup (dict_keys (dict_set d k v)).
Proof.
  intros Hd. rewrite dict_keys_set.
  destruct (in_dec string_dec k (dict_keys d)); auto.
  apply NoDup_app; auto.
  - constructor; [intros []|constructor].
  - intros x Hx [<-|[]]. contradiction.
Qed.

Lemma dict_set_In d k v k' v' :
  In (k', v') (dict_set d k v) -> (k', v') = (k, v) \/ In (k', v') d.
Proof.
  induction d as [|[k0 v0] d IH]; simpl.
  - intros [H|[]]; auto.
  - destruct (String.eqb k0 k) eqn:E; simpl.
    + apply String.eqb_eq in E. subst. intros [H|H]; auto.
    + intros [H|H]; auto. destruct (IH H); auto.
Qed.

Lemma dict_keys_get d k : In k (dict_keys d) -> exists v, dict_get d k = Some v.
Proof.
  induction d as [|[k0 v0] d IH]; simpl; [intros []|].
  intros [->|H].
  - rewrite String.eqb_refl. eauto.
  - destruct (String.eqb k0 k); eauto.
Qed.

Lemma NoDup_keys_filter (p : string * V -> bool) d :
  NoDup (dict_keys d) -> NoDup (dict_keys (filter p d)).
Proof.
  unfold dict_keys. induction d as [|e d IH]; simpl; auto.
  intros Hd. inversion Hd as [|? ? Hn Hd']; subst.
  destruct (p e); simpl; auto.
  constructor; auto.
  intros Hin. apply Hn. apply in_map_iff in Hin as [x [Hx Hin]].
  apply filter_In in Hin as [Hin _]. rewrite <- Hx. now apply in_map.
Qed.

Lemma dict_get_map (F : string -> V) (l : list string) k :
 
  In k l -> dict_get (map (fun img => (img, F img)) l) k = Some (F k).
Proof.
  induction l as [|x l IH]; simpl; [intros []|].
  destruct (String.eqb x k) eqn:E.
  - apply String.eqb_eq in E. now subst.
  - intros [->|H]; auto. now rewrite String.eqb_refl in E.
Qed.

End DictFacts.

(** ** Scenes *)

Section SceneFacts.
Context {N : Number} {G : Shapely N}.
Implicit Types (I : Inputs) (img : string).

Lemma extents_fold I (l : list string) (d : dict geom) :
  NoDup (dict_keys d) ->
  (forall k v, In (k, v) d -> v = extent I k) ->
  let d' := fold_left (fun d img => dict_set d img (extent I img)) l d in
  NoDup (dict_keys d')
  /\ (forall k v, In (k, v) d' -> v = extent I k)
  /\ (forall k, In k (dict_keys d') <-> In k (dict_keys d) \/ In k l).
Proof.
  revert d. induction l as [|img l IH]; simpl; intros d Hd Hv.
  - repeat split; auto. intros [H|[]]; auto.
  - destruct (IH (dict_set d img (extent I img))) as (H1 & H2 & H3).
    + now apply dict_set_keys_NoDup.
    + intros k v Hin. apply dict_set_In in Hin as [[= -> ->]|Hin]; auto.
    + repeat split; auto.
      * intros Hk. apply H3 in Hk. rewrite dict_keys_set in Hk.
        destruct (in_dec string_dec img (dict_keys d)) as [Hi|Hi]; [tauto|].
        destruct Hk as [Hk|Hk]; auto.
        apply in_app_or in Hk as [Hk|[<-|[]]]; auto.
      * intros Hk. apply H3. rewrite dict_keys_set.
        destruct (in_dec string_dec img (dict_keys d)) as [Hi|Hi].
        -- destruct Hk as [Hk|[<-|Hk]]; auto.
        -- destruct Hk as [Hk|[<-|Hk]]; auto; left; apply in_or_app; simpl; auto.
Qed.

Lemma extents_NoDup I : NoDup (dict_keys (image_to_extents I)).
Proof.
  destruct (extents_fold I (image_files I) []) as (H & _); simpl; auto.
  - constructor.
  - intros ? ? [].
Qed.

Lemma extents_keys I img :
  In img (dict_keys (image_to_extents I)) <-> In img (image_files I).
Proof.
  destruct (extents_fold I (image_files I) []) as (_ & _ & H); simpl.
  - constructor.
  - intros ? ? [].
  - unfold image_to_extents, extent in *. rewrite H. simpl. tauto.
Qed.

Lemma extents_In I img v : In (img, v) (image_to_extents I) -> v = extent I img.
Proof.
  destruct (extents_fold I (image_files I) []) as (_ & H & _); simpl.
  - constructor.
  - intros ? ? [].
  - apply H.
Qed.

Lemma extents_get I img :
  In img (image_files I) -> dict_get (image_to_extents I) img = Some (extent I img).
Proof.
  intros H. apply extents_keys, dict_keys_get in H as [v Hv].
  rewrite Hv. f_equal. now apply extents_In, dict_get_In.
Qed.

Lemma select_fold {A B} (p : A -> bool) (f : A -> B) (l : list A) (acc : list B) :
  fold_left (fun acc e => if p e then acc ++ [f e] else acc) l acc
  = acc ++ map f (filter p l).
Proof.
  revert acc. induction l as [|e l IH]; simpl; intros acc.
  - now rewrite app_nil_r.
  - rewrite IH. destruct (p e); simpl; auto. now rewrite <- app_assoc.
Qed.

(** The scenes that meet the AOI are those entries of [image_to_extents]
    whose extent intersects it, in the dict's order. *)
Lemma intersecting_images_filter I :
  intersecting_images I
  = dict_keys (filter (fun e => intersects (snd e) (aoi I)) (image_to_extents I)).
Proof. unfold intersecting_images. now rewrite select_fold. Qed.

Lemma intersecting_NoDup I : NoDup (intersecting_images I).
Proof.
  rewrite intersecting_images_filter.
  apply NoDup_keys_filter, extents_NoDup.
Qed.

Lemma intersecting_In I img :
  In img (intersecting_images I)
  <-> In img (image_files I) /\ intersects (extent I img) (aoi I) = true.
Proof.
  rewrite intersecting_images_filter. unfold dict_keys. split.
  - intros H. apply in_map_iff in H as [[k v] [<- H]].
    apply filter_In in H as [Hin Hp]. simpl in *.
    pose proof (extents_In _ _ _ Hin) as ->. split; auto.
    apply extents_keys. now apply (in_map fst) in Hin.
  - intros [Hin Hp]. apply extents_get, dict_get_In in Hin.
    apply in_map_iff. exists (img, extent I img). split; auto.
    apply filter_In. auto.
Qed.

Lemma intersecting_extent I img :
  In img (intersecting_images I) ->
  dict_get (image_to_extents I) img = Some (extent I img).
Proof. intros H. apply intersecting_In in H as [H _]. now apply extents_get. Qed.

End SceneFacts.

(** ** Sorting *)

Section SortFacts.
Context {N : Number} {A : Type}.
Implicit Types (x y : number * A) (l : list (number * A)) (k : number).

Lemma insert_by_key_perm x l : Permutation (insert_by_key x l) (x :: l).
Proof.
  induction l as [|y l IH]; simpl; auto.
  destruct (flt (fst y) (fst x)); auto.
  rewrite IH. apply perm_swap.
Qed.

Lemma sort_by_key_perm l : Permutation (sort_by_key l) l.
Proof.
  induction l as [|x l IH]; simpl; auto.
  rewrite insert_by_key_perm. now constructor.
Qed.

Lemma sort_reverse_perm l : Permutation (sort_reverse l) l.
Proof.
  unfold sort_reverse.
  now rewrite <- Permutation_rev, sort_by_key_perm, <- Permutation_rev.
Qed.

Lemma ordered_keys_perm l l' : Permutation l l' -> ordered_keys l -> ordered_keys l'.
Proof. intros Hp. unfold ordered_keys. now rewrite Hp. Qed.

Lemma StronglySorted_snoc (R : number * A -> number * A -> Prop) l x :
  StronglySorted R l -> Forall (fun y => R y x) l -> StronglySorted R (l ++ [x]).
Proof.
  induction 1 as [|y l Hs IH Hy]; simpl; intros Hx.
  - repeat constructor.
  - inversion Hx; subst. constructor; auto.
    apply Forall_app. split; auto.
Qed.

Lemma StronglySorted_rev (R : number * A -> number * A -> Prop) l :
  StronglySorted R l -> StronglySorted (fun x y => R y x) (rev l).
Proof.
  induction 1 as [|y l Hs IH Hy]; simpl.
  - constructor.
  - apply StronglySorted_snoc; auto. now apply Forall_rev.
Qed.

Context {L : NumberLaws N}.

Lemma flt_false_trans a b c :
  fle a a = true -> fle b b = true -> fle c c = true ->
  flt a b = false -> flt b c = false -> flt a c = false.
Proof.
  intros Ha Hb Hc Hab Hbc.
  apply fle_not_flt. apply fle_trans with b.
  - now apply flt_total.
  - now apply flt_total.
Qed.

Lemma insert_by_key_sorted x l :
  fle (fst x) (fst x) = true -> ordered_keys l ->
  StronglySorted ascending l -> StronglySorted ascending (insert_by_key x l).
Proof.
  intros Hx Hl Hs. induction Hs as [|y l Hs IH Hy]; simpl.
  - repeat constructor.
  - inversion Hl as [|? ? Hyy Hl']; subst.
    destruct (flt (fst y) (fst x)) eqn:E.
    + constructor; auto.
      apply (@Permutation_Forall _ _ (x :: l)).
      * symmetry. apply insert_by_key_perm.
      * constructor; auto. unfold ascending.
        apply flt_total; auto. now apply flt_asym.
    + assert (Hxy : ascending x y) by (unfold ascending; now apply flt_total).
      constructor.
      * constructor; auto.
      * constructor; auto.
        eapply Forall_impl; [|exact Hy].
        intros z Hz. unfold ascending in *. now apply fle_trans with (fst y).
Qed.

Lemma sort_by_key_sorted l :
  ordered_keys l -> StronglySorted ascending (sort_by_key l).
Proof.
  induction 1 as [|x l Hx Hl IH]; simpl.
  - constructor.
  - apply insert_by_key_sorted; auto.
    apply ordered_keys_perm with l; auto. symmetry. apply sort_by_key_perm.
Qed.

(** [sorted(..., reverse=True)] is descending on keys that are ordered. *)
Lemma sort_reverse_descending l :
  ordered_keys l -> StronglySorted descending (sort_reverse l).
Proof.
  intros Hl. unfold sort_reverse.
  apply (StronglySorted_rev ascending), sort_by_key_sorted.
  now apply Forall_rev.
Qed.

Lemma insert_by_key_tied k x l :
  fle k k = true -> fle (fst x) (fst x) = true -> ordered_keys l ->
  filter (tied k) (insert_by_key x l) = filter (tied k) (x :: l).
Proof.
  intros Hk Hx Hl. induction Hl as [|y l Hy Hl IH]; auto.
  cbn [insert_by_key]. destruct (flt (fst y) (fst x)) eqn:E; auto.
  cbn [filter] in *. rewrite IH.
  destruct (tied k y) eqn:Ty, (tied k x) eqn:Tx; auto.
  unfold tied in *.
  apply andb_prop in Ty as [_ Ty], Tx as [Tx _].
  apply negb_true_iff in Ty, Tx.
  rewrite (flt_false_trans (fst y) k (fst x)) in E; auto. discriminate.
Qed.

Lemma sort_by_key_stable k l :
  fle k k = true -> ordered_keys l ->
  filter (tied k) (sort_by_key l) = filter (tied k) l.
Proof.
  intros Hk Hl. induction Hl as [|x l Hx Hl IH]; auto.
  cbn [sort_by_key fold_right]. fold (sort_by_key l).
  rewrite insert_by_key_tied; auto.
  - cbn [filter]. now rewrite IH.
  - apply ordered_keys_perm with l; auto. symmetry. apply sort_by_key_perm.
Qed.

(** ... and stable: the items tied with a key keep their order. *)
Lemma sort_reverse_stable k l :
  fle k k = true -> ordered_keys l ->
  filter (tied k) (sort_reverse l) = filter (tied k) l.
Proof.
  intros Hk Hl. unfold sort_reverse.
  rewrite filter_rev, sort_by_key_stable, filter_rev, rev_involutive; auto.
  now apply Forall_rev.
Qed.

End SortFacts.

(** ** The split cell *)

Section SplitFacts.
Context {N : Number} {G : Shapely N}.
Implicit Types (I : Inputs) (img : string) (fs : files).

Lemma images_to_area_loop I fs (l : list string) (d : dict number) :
  fis_zero (area (aoi I)) = false ->
  (forall img, In img l -> In img (intersecting_images I)) ->
  NoDup l -> (forall img, In img l -> ~ In img (dict_keys d)) ->
  for_each l
    (fun img images_to_area =>
       extent <- getitem (image_to_extents I) img ;;
       fraction <- truediv (area (intersection extent (aoi I))) (area (aoi I)) ;;
       ret (dict_set images_to_area img fraction))
    d fs
  = (inr (d ++ map (fun img => (img, coverage I img)) l), fs).
Proof.
  intros Hz. revert d. induction l as [|img l IH]; simpl; intros d Hin Hnd Hd.
  - now rewrite app_nil_r.
  - unfold bind at 1. unfold bind at 1. unfold getitem at 1.
    rewrite (intersecting_extent I img) by auto.
    unfold ret at 1. unfold bind at 1. unfold truediv at 1. rewrite Hz.
    unfold ret at 1 2.
    inversion Hnd as [|? ? Hn Hnd']; subst.
    rewrite dict_set_new by auto.
    rewrite IH; auto.
    + now rewrite <- app_assoc.
    + intros x Hx Hk. unfold dict_keys in Hk. rewrite map_app in Hk.
      apply in_app_or in Hk as [Hk|[<-|[]]]; auto.
      eapply Hd; eauto.
Qed.

Lemma images_to_area_run I fs :
  fis_zero (area (aoi I)) = false ->
  images_to_area I fs
  = (inr (map (fun img => (img, coverage I img)) (intersecting_images I)), fs).
Proof.
  intros Hz. unfold images_to_area. cbv zeta.
  rewrite images_to_area_loop; auto. apply intersecting_NoDup.
Qed.

(** A region without area makes the first division raise. *)
Lemma images_to_area_zero I fs :
  fis_zero (area (aoi I)) = true ->
  images_to_area I fs
  = if is_nil (intersecting_images I) then (inr [], fs)
    else (inl ZeroDivisionError, fs).
Proof.
  intros Hz. unfold images_to_area. cbv zeta.
  pose proof (intersecting_extent I) as He.
  destruct (intersecting_images I) as [|img l]; simpl; auto.
  unfold bind at 1. unfold bind at 1. unfold getitem at 1.
  rewrite He by (now left).
  unfold ret at 1. unfold bind at 1. unfold truediv at 1. now rewrite Hz.
Qed.

Lemma keyed_loop (d : dict number) (c : string -> number) fs
    (l : list string) (acc : list (number * string)) :
  (forall img, In img l -> dict_get d img = Some (c img)) ->
  for_each l (fun img keyed => k <- getitem d img ;; ret (keyed ++ [(k, img)]))
    acc fs
  = (inr (acc ++ map (fun img => (c img, img)) l), fs).
Proof.
  revert acc. induction l as [|img l IH]; simpl; intros acc Hd.
  - now rewrite app_nil_r.
  - unfold bind at 1. unfold bind at 1. unfold getitem at 1.
    rewrite Hd by auto. unfold ret at 1 2.
    rewrite IH by auto. now rewrite <- app_assoc.
Qed.

(** The loop of the cell against the walk of the design. *)
Lemma walk_loop (ratio : number) (d : dict number) fs
    (l : list (number * string)) (s : Split) :
  (forall c img, In (c, img) l -> dict_get d img = Some c) ->
  for_each (map snd l)
    (fun img s =>
       if flt (train_area_covered s) ratio then
         fraction <- getitem d img ;;
         ret {| train_imgs := train_imgs s ++ [img];
                val_imgs := val_imgs s;
                train_area_covered := fadd (train_area_covered s) fraction |}
       else
         ret {| train_imgs := train_imgs s;
                val_imgs := val_imgs s ++ [img];
                train_area_covered := train_area_covered s |})
    s fs
  = (inr (let w := greedy_walk ratio (train_area_covered s) l in
          {| train_imgs := train_imgs s ++ train_imgs w;
             val_imgs := val_imgs s ++ val_imgs w;
             train_area_covered := train_area_covered w |}), fs).
Proof.
  revert s. induction l as [|[c img] l IH]; intros s Hd.
  - destruct s. simpl. now rewrite !app_nil_r.
  - cbn [map snd for_each greedy_walk]. unfold bind at 1.
    destruct (flt (train_area_covered s) ratio) eqn:E.
    + unfold bind at 1. unfold getitem at 1.
      rewrite (Hd c img) by (now left). unfold ret at 1 2.
      rewrite IH by (intros; apply Hd; now right).
      cbn. now rewrite <- app_assoc.
    + unfold ret at 1. rewrite IH by (intros; apply Hd; now right).
      cbn. now rewrite <- app_assoc.
Qed.

(** The split cell computes the walk over the scenes sorted by coverage,
    unless the AOI has no area and a scene meets it. *)
Lemma split_run (ratio : number) I fs :
  split ratio I fs
  = if fis_zero (area (aoi I)) && negb (is_nil (intersecting_images I))
    then (inl ZeroDivisionError, fs)
    else (inr (greedy_walk ratio fzero (by_coverage I)), fs).
Proof.
  unfold split. unfold bind at 1.
  destruct (fis_zero (area (aoi I))) eqn:Hz.
  - rewrite images_to_area_zero by auto. unfold by_coverage.
    destruct (intersecting_images I); reflexivity.
  - rewrite images_to_area_run by auto. cbn [andb].
    unfold bind at 1. unfold sorted_reverse. unfold bind at 1.
    rewrite (keyed_loop _ (coverage I)) by (intros; now apply dict_get_map).
    unfold ret at 1 2. cbn [app]. fold (by_coverage I).
    rewrite walk_loop.
    + cbn. now destruct (greedy_walk ratio fzero (by_coverage I)).
    + intros c img Hin.
      apply (Permutation_in _ (sort_reverse_perm _)) in Hin.
      apply in_map_iff in Hin as [x [[= <- <-] Hx]].
      now apply dict_get_map.
Qed.

End SplitFacts.

(** ** The label cells *)

Section LabelFacts.
Context {N : Number} {G : Shapely N}.
Implicit Types (I : Inputs) (img : string) (fs : files) (feature : json).

Lemma labels_ok_inv (lj : json) :
  labels_ok lj = true ->
  exists d raw crs,
    lj = JDict d /\ dict_get d "features" = Some (JList raw)
    /\ dict_get d "crs" = Some crs /\ forallb feature_ok raw = true.
Proof.
  destruct lj as [| | | | | |d]; try discriminate. simpl.
  destruct (dict_get d "features") as [[| | | | |raw|]|] eqn:Hf; try discriminate.
  destruct (dict_get d "crs") as [crs|] eqn:Hc; try discriminate.
  intros H. now exists d, raw, crs.
Qed.

Lemma add_class_run feature fs :
  feature_ok feature = true -> add_class feature fs = (inr (classed feature), fs).
Proof.
  destruct feature as [| | | | | |fd]; try discriminate. simpl.
  destruct (dict_get fd "properties") as [[| | | | | |props]|] eqn:Hp;
    try discriminate.
  intros _. unfold add_class, bind, json_getitem, json_setitem, getitem, ret.
  rewrite Hp, dict_get_set_same, dict_set_set. reflexivity.
Qed.

Lemma add_classes_loop (raw done : list json) fs :
  forallb feature_ok raw = true ->
  for_each raw
    (fun feature done => feature <- add_class feature ;; ret (done ++ [feature]))
    done fs
  = (inr (done ++ map classed raw), fs).
Proof.
  revert done. induction raw as [|f raw IH]; simpl; intros done Hok.
  - now rewrite app_nil_r.
  - apply andb_prop in Hok as [Hf Hok].
    unfold bind at 1. unfold bind at 1. rewrite add_class_run by auto.
    unfold ret at 1. rewrite IH by auto. now rewrite <- app_assoc.
Qed.

Lemma add_classes_run d raw fs :
  dict_get d "features" = Some (JList raw) ->
  forallb feature_ok raw = true ->
  add_classes (JDict d) fs
  = (inr (JDict (dict_set d "features" (JList (map classed raw)))), fs).
Proof.
  intros Hf Hok. unfold add_classes.
  unfold bind at 1. unfold json_getitem, getitem. rewrite Hf. unfold ret at 1.
  unfold bind at 1. unfold json_iter, ret at 1.
  unfold bind at 1. rewrite add_classes_loop by auto.
  reflexivity.
Qed.

Lemma geometry_classed feature : geometry_of (classed feature) = geometry_of feature.
Proof.
  destruct feature as [| | | | | |fd]; auto. simpl.
  destruct (dict_get fd "properties") as [[| | | | | |props]|]; auto.
  simpl. now rewrite dict_get_set_other.
Qed.

Lemma hits_classed bbox feature : hits bbox (classed feature) = hits bbox feature.
Proof. unfold hits. now rewrite geometry_classed. Qed.

Lemma readable_classed feature : feature_ok feature = true -> readable (classed feature) = true.
Proof.
  destruct feature as [| | | | | |fd]; try discriminate. simpl.
  destruct (dict_get fd "properties") as [[| | | | | |props]|]; try discriminate.
  simpl. rewrite dict_get_set_other by discriminate.
  destruct (dict_get fd "geometry") as [gj|]; auto.
Qed.

Lemma dict_get_app_last {V} (d : dict V) k (v : V) :
  ~ In k (dict_keys d) -> dict_get (d ++ [(k, v)]) k = Some v.
Proof.
  intros Hn. rewrite <- (dict_set_new d k v Hn). apply dict_get_set_same.
Qed.

Lemma match_features_loop (bbox : geom) img fs (d0 : dict (list json))
    (items found : list json) :
  ~ In img (dict_keys d0) ->
  forallb readable items = true ->
  for_each items
    (fun feature image_to_features =>
       geometry <- json_getitem feature "geometry" ;;
       match shape geometry with
       | None => raise ShapeError
       | Some g =>
           if intersects g bbox then
             found <- getitem image_to_features img ;;
             ret (dict_set image_to_features img (found ++ [feature]))
           else ret image_to_features
       end)
    (d0 ++ [(img, found)]) fs
  = (inr (d0 ++ [(img, found ++ filter (hits bbox) items)]), fs).
Proof.
  intros Hn. revert found. induction items as [|f items IH]; intros found Hok.
  - simpl. now rewrite app_nil_r.
  - cbn [forallb] in Hok. apply andb_prop in Hok as [Hf Hok].
    cbn [for_each filter]. unfold bind at 1. unfold bind at 1.
    unfold hits, geometry_of.
    destruct f as [| | | | | |fd]; try discriminate. simpl in Hf.
    unfold json_getitem, getitem.
    destruct (dict_get fd "geometry") as [gj|]; try discriminate.
    unfold ret at 1.
    destruct (shape gj) as [g|]; try discriminate.
    destruct (intersects g bbox).
    + unfold bind at 1. rewrite dict_get_app_last by auto.
      unfold ret at 1 2. rewrite dict_set_last by auto.
      rewrite IH by auto. now rewrite <- app_assoc.
    + unfold ret at 1. now rewrite IH by auto.
Qed.

Lemma image_to_features_loop I d items fs (l : list string)
    (d0 : dict (list json)) :
  dict_get d "features" = Some (JList items) ->
  forallb readable items = true ->
  (forall img, In img l -> In img (intersecting_images I)) ->
  NoDup l -> (forall img, In img l -> ~ In img (dict_keys d0)) ->
  for_each l
    (fun img image_to_features =>
       let image_to_features := dict_set image_to_features img [] in
       bbox <- getitem (image_to_extents I) img ;;
       match_features (JDict d) bbox img image_to_features)
    d0 fs
  = (inr (d0 ++ map (fun img => (img, filter (hits (extent I img)) items)) l), fs).
Proof.
  intros Hf Hok. revert d0.
  induction l as [|img l IH]; simpl; intros d0 Hin Hnd Hd.
  - now rewrite app_nil_r.
  - inversion Hnd as [|? ? Hn Hnd']; subst.
    unfold bind at 1. unfold bind at 1. unfold getitem at 1.
    rewrite (intersecting_extent I img) by auto. unfold ret at 1.
    unfold match_features. unfold bind at 1.
    unfold json_getitem, getitem at 1. rewrite Hf. unfold ret at 1.
    unfold bind at 1. unfold json_iter, ret at 1.
    rewrite dict_set_new by auto.
    rewrite match_features_loop by auto. cbn [app].
    rewrite IH; auto.
    + now rewrite <- app_assoc.
    + intros x Hx Hk. unfold dict_keys in Hk. rewrite map_app in Hk.
      apply in_app_or in Hk as [Hk|[<-|[]]]; auto.
      eapply Hd; eauto.
Qed.

Lemma write_labels_run d crs fs (image_to_features : dict (list json)) :
  dict_get d "crs" = Some crs ->
  write_labels (JDict d) image_to_features fs
  = (inr tt,
     fs ++ map (fun entry =>
                  (label_file (fst entry),
                   JsonDump (feature_collection crs (snd entry))))
             image_to_features).
Proof.
  intros Hc. unfold write_labels. revert fs.
  induction image_to_features as [|e l IH]; cbn [for_each map]; intros fs.
  - unfold ret. now rewrite app_nil_r.
  - unfold bind at 1. unfold bind at 1.
    unfold json_getitem at 1. unfold getitem at 1. rewrite Hc. unfold ret at 1.
    unfold write_file at 1. rewrite IH. now rewrite <- app_assoc.
Qed.

(** The label cells run through on a well-formed label file: they return
    one entry per scene that meets the AOI and write one collection for
    each, in the same order. *)
Lemma prepare_labels_run I fs :
  labels_ok (label_js I) = true ->
  prepare_labels I fs
  = (inr (map (fun img => (img, scene_features I img)) (intersecting_images I)),
     fs ++ map (fun img =>
                  (label_file img,
                   JsonDump (feature_collection (crs_of (label_js I))
                               (scene_features I img))))
             (intersecting_images I)).
Proof.
  intros Hok. unfold scene_features, prepare_labels.
  destruct (labels_ok_inv _ Hok) as (d & raw & crs & Hd & Hf & Hc & Hraw).
  rewrite Hd. cbn [raw_features crs_of]. rewrite Hf, Hc.
  unfold bind at 1. rewrite (add_classes_run d raw) by auto.
  unfold bind at 1. unfold image_to_features.
  rewrite (image_to_features_loop I _ (map classed raw)).
  - cbn [app]. unfold bind at 1.
    rewrite (write_labels_run _ crs).
    + unfold ret. now rewrite map_map.
    + now rewrite dict_get_set_other.
  - apply dict_get_set_same.
  - rewrite forallb_forall in *. intros f Hin.
    apply in_map_iff in Hin as [f0 [<- Hin]]. apply readable_classed; auto.
  - auto.
  - apply intersecting_NoDup.
  - intros ? ? [].
Qed.

End LabelFacts.

(** ** Exact arithmetic satisfies the laws *)

Lemma Qle_bool_false (a b : Q) : Qle_bool a b = false <-> (b < a)%Q.
Proof.
  split; intros H.
  - apply Qnot_le_lt. intros Hle. apply Qle_bool_iff in Hle. congruence.
  - destruct (Qle_bool a b) eqn:E; auto.
    apply Qle_bool_iff in E. apply Qlt_not_le in H. contradiction.
Qed.

Ltac to_Qprop :=
  cbn [flt fle fadd fzero rational] in *;
  repeat match goal with
         | H : negb _ = true |- _ => apply negb_true_iff in H
         | H : negb _ = false |- _ => apply negb_false_iff in H
         | H : Qle_bool _ _ = true |- _ => apply Qle_bool_iff in H
         | H : Qle_bool _ _ = false |- _ => apply Qle_bool_false in H
         end;
  repeat match goal with
         | |- negb _ = true => apply negb_true_iff
         | |- negb _ = false => apply negb_false_iff
         | |- Qle_bool _ _ = true => apply Qle_bool_iff
         | |- Qle_bool _ _ = false => apply Qle_bool_false
         end.

Lemma rational_laws : NumberLaws rational.
Proof. constructor; intros; to_Qprop; lra. Qed.

Lemma rational_monotone : MonotoneAdd rational.
Proof. constructor; intros; to_Qprop; lra. Qed.

(** ** IEEE doubles satisfy the laws *)

Lemma SFcompare_key (a b : spec_float) :
  match SFcompare a b with
  | Some Lt => on_keys lex_lt a b
  | Some Eq => on_keys (fun ka kb => ka = kb) a b
  | Some Gt => on_keys lex_lt b a
  | None => sf_key a = None \/ sf_key b = None
  end.
Proof.
  unfold on_keys.
  destruct a as [sa|sa| |sa ma ea], b as [sb|sb| |sb mb eb];
    cbn [SFcompare sf_key];
    try destruct sa; try destruct sb; cbn; auto; try lia;
    change (Pos.compare_cont Eq ma mb) with (Pos.compare ma mb);
    destruct (Z.compare_spec ea eb), (Pos.compare_spec ma mb); subst; cbn;
    auto; lia.
Qed.

Lemma SFltb_iff (a b : spec_float) : SFltb a b = true <-> on_keys lex_lt a b.
Proof.
  unfold SFltb. pose proof (SFcompare_key a b) as H. unfold on_keys in *.
  destruct (SFcompare a b) as [[]|], (sf_key a) as [[[a1 a2] a3]|],
    (sf_key b) as [[[b1 b2] b3]|]; cbn in *;
    try (split; (discriminate || tauto)); try (destruct H; discriminate);
    try (injection H as -> -> ->); split; (discriminate || lia || auto).
Qed.

Lemma SFleb_iff (a b : spec_float) : SFleb a b = true <-> on_keys lex_le a b.
Proof.
  unfold SFleb. pose proof (SFcompare_key a b) as H. unfold on_keys in *.
  destruct (SFcompare a b) as [[]|], (sf_key a) as [[[a1 a2] a3]|],
    (sf_key b) as [[[b1 b2] b3]|]; cbn in *;
    try (split; (discriminate || tauto)); try (destruct H; discriminate);
    try (injection H as -> -> ->); split; (discriminate || lia || auto).
Qed.

Lemma SFltb_false (a b : spec_float) :
  SFltb a b = false <-> ~ on_keys lex_lt a b.
Proof. rewrite <- SFltb_iff. destruct (SFltb a b); split; congruence. Qed.

(** [0 + c] keeps the place of [c] in the order. *)
Lemma SFadd_zero_key (c : spec_float) :
  sf_key (SF64add (S754_zero false) c) = sf_key c.
Proof. destruct c as [[]|[]| |]; reflexivity. Qed.

Lemma Prim2SF_zero : Prim2SF 0%float = S754_zero false.
Proof. vm_compute. reflexivity. Qed.

Ltac float_keys :=
  cbn [flt fle fadd fzero binary64]; intros *;
  rewrite ?ltb_spec, ?leb_spec, ?add_spec, ?Prim2SF_zero, ?SFltb_false,
    ?SFltb_iff, ?SFleb_iff;
  unfold on_keys; rewrite ?SFadd_zero_key;
  repeat match goal with
         | |- context [sf_key (Prim2SF ?x)] =>
             destruct (sf_key (Prim2SF x)) as [[[? ?] ?]|]
         end;
  cbn; try tauto; try lia.

Lemma binary64_laws : NumberLaws binary64.
Proof. constructor; float_keys. Qed.

(** ** The greedy walk *)

Section WalkFacts.
Context {N : Number}.
Implicit Types (r acc : number) (l : list (number * string)).

Lemma greedy_walk_perm r acc l :
  Permutation (train_imgs (greedy_walk r acc l) ++ val_imgs (greedy_walk r acc l))
    (map snd l).
Proof.
  revert acc. induction l as [|[c s] l IH]; intros acc; cbn [greedy_walk map snd].
  - constructor.
  - destruct (flt acc r); cbn.
    + constructor. apply IH.
    + rewrite <- Permutation_middle. constructor. apply IH.
Qed.

(** Once the accumulator has reached the ratio it stays, and the rest goes
    to validation. *)
Lemma greedy_walk_full r acc l :
  flt acc r = false ->
  greedy_walk r acc l
  = {| train_imgs := []; val_imgs := map snd l; train_area_covered := acc |}.
Proof.
  intros H. induction l as [|[c s] l IH]; cbn [greedy_walk map snd]; auto.
  now rewrite H, IH.
Qed.

Context {L : NumberLaws N} {Mo : MonotoneAdd N}.

Lemma total_below r acc l :
  fle fzero acc = true ->
  Forall (fun x => fle fzero (fst x) = true) l ->
  flt (total acc l) r = true -> flt acc r = true.
Proof.
  intros Hacc Hl. revert acc Hacc.
  induction Hl as [|[c s] l Hc Hl IH]; intros acc Hacc; cbn; auto.
  intros H. apply fle_flt_trans with (fadd acc c).
  - now apply fadd_mono.
  - apply IH; auto. apply fle_trans with acc; auto. now apply fadd_mono.
Qed.

Lemma greedy_walk_under r acc l :
  fle fzero acc = true ->
  Forall (fun x => fle fzero (fst x) = true) l ->
  flt (total acc l) r = true ->
  greedy_walk r acc l
  = {| train_imgs := map snd l; val_imgs := [];
       train_area_covered := total acc l |}.
Proof.
  intros Hacc Hl. revert acc Hacc.
  induction Hl as [|[c s] l Hc Hl IH]; intros acc Hacc H; auto.
  cbn [greedy_walk map snd].
  rewrite (total_below r acc ((c, s) :: l)); auto.
  cbn in *. rewrite IH; auto.
  apply fle_trans with acc; auto. now apply fadd_mono.
Qed.

End WalkFacts.

(** ** File names *)

Section PathFacts.

Lemma length_append (a b : string) :
  String.length (a ++ b) = String.length a + String.length b.
Proof. induction a; simpl; auto. Qed.

Lemma append_inv_head (s a b : string) : (s ++ a = s ++ b)%string -> a = b.
Proof. induction s; simpl; auto. intros [= H]. auto. Qed.

Lemma append_inv_tail (t a b : string) : (a ++ t = b ++ t)%string -> a = b.
Proof.
  revert b. induction a as [|c a IH]; intros [|c' b]; simpl; auto.
  - intros H. apply (f_equal String.length) in H. simpl in H.
    rewrite length_append in H. lia.
  - intros H. apply (f_equal String.length) in H. simpl in H.
    rewrite length_append in H. lia.
  - intros [= -> H]. f_equal. auto.
Qed.

Lemma substring_all (s : string) : substring 0 (String.length s) s = s.
Proof. induction s; simpl; congruence. Qed.

(** [basename] returns a name without a slash. *)
Lemma basename_no_slash (p : string) : rfind "/" (basename p) = None.
Proof.
  unfold basename. induction p as [|a p IH]; auto.
  cbn [rfind]. destruct (rfind "/" p) as [i|] eqn:E.
  - unfold string_from in *. cbn [String.length Nat.sub substring]. exact IH.
  - destruct (Ascii.eqb a "/") eqn:Ea.
    + unfold string_from. cbn [String.length Nat.sub substring].
      rewrite Nat.sub_0_r, substring_all. exact E.
    + cbn [rfind]. now rewrite E, Ea.
Qed.

Lemma root_not_absolute (q : string) (n : nat) :
  rfind "/" q = None ->
  startswith_slash (substring 0 n q ++ ".geojson") = false.
Proof.
  destruct q as [|a q]; destruct n; auto.
  cbn [rfind]. destruct (rfind "/" q); [discriminate|].
  destruct (Ascii.eqb a "/") eqn:E; [discriminate|]. auto.
Qed.

Lemma label_name_not_absolute (img : string) :
  startswith_slash (label_basename img ++ ".geojson") = false.
Proof.
  unfold label_basename. pose proof (basename_no_slash img) as H.
  set (q := basename img) in *.
  assert (Hq : startswith_slash (q ++ ".geojson") = false).
  { rewrite <- (substring_all q) at 1. now apply root_not_absolute. }
  unfold splitext. destruct (rfind "." q) as [dot|]; auto.
  match goal with |- context [if ?c then _ else _] => destruct c end; auto.
  now apply root_not_absolute.
Qed.

(** The label file of a scene is its basename under the labels directory. *)
Lemma label_file_eq (img : string) :
  label_file img = (processed_labels_dir ++ label_basename img ++ ".geojson")%string.
Proof.
  unfold label_file, path_join. now rewrite label_name_not_absolute.
Qed.

Lemma label_file_inj (a b : string) :
  label_file a = label_file b <-> label_basename a = label_basename b.
Proof.
  rewrite !label_file_eq. split.
  - intros H. apply append_inv_head in H. now apply append_inv_tail in H.
  - now intros ->.
Qed.

End PathFacts.

(** ** Where the walk stops *)

Section ThresholdFacts.
Context {N : Number}.
Implicit Types (r acc : number) (l : list (number * string)).

(** The walk cuts its list in two: training is the shortest prefix whose
    sum is not below the ratio, or the whole list. *)
Lemma greedy_walk_threshold r acc l :
  exists k,
    k <= List.length l
    /\ train_imgs (greedy_walk r acc l) = map snd (firstn k l)
    /\ val_imgs (greedy_walk r acc l) = map snd (skipn k l)
    /\ train_area_covered (greedy_walk r acc l) = total acc (firstn k l)
    /\ (forall j, j < k -> flt (total acc (firstn j l)) r = true)
    /\ (k < List.length l -> flt (total acc (firstn k l)) r = false).
Proof.
  revert acc. induction l as [|[c s] l IH]; intros acc.
  - exists 0. cbn. repeat split; auto; lia.
  - cbn [greedy_walk]. destruct (flt acc r) eqn:E.
    + destruct (IH (fadd acc c)) as (k & Hk & Ht & Hv & Hc & Hlt & Hge).
      exists (S k). cbn [List.length firstn skipn map snd train_imgs val_imgs
                           train_area_covered].
      split; [lia|]. split; [congruence|]. split; [congruence|].
      split; [exact Hc|]. split.
      * intros [|j] Hj; cbn; auto. apply Hlt. lia.
      * intros Hlen. apply Hge. lia.
    + exists 0. rewrite greedy_walk_full by auto. cbn. repeat split; auto; lia.
Qed.

End ThresholdFacts.

Lemma StronglySorted_app_inv {A} (R : A -> A -> Prop) (l1 l2 : list A) :
  StronglySorted R (l1 ++ l2) ->
  forall x y, In x l1 -> In y l2 -> R x y.
Proof.
  induction l1 as [|a l1 IH]; cbn; [tauto|].
  intros Hs x y [->|Hx] Hy.
  - apply StronglySorted_inv in Hs as [_ Hall].
    rewrite Forall_forall in Hall. apply Hall, in_or_app. auto.
  - apply StronglySorted_inv in Hs as [Hs _]. eauto.
Qed.

Lemma by_coverage_keys {N : Number} {G : Shapely N} (I : Inputs) c img :
  In (c, img) (by_coverage I) ->
  c = coverage I img /\ In img (intersecting_images I).
Proof.
  intros Hin. unfold by_coverage in Hin.
  apply (Permutation_in _ (sort_reverse_perm _)) in Hin.
  apply in_map_iff in Hin as [x [[= <- <-] Hx]]. auto.
Qed.

(** The walk sends no scene to validation exactly when every sum it
    compares with the ratio is below it. *)
Lemma greedy_walk_all_training {N : Number} (r acc : number)
    (l : list (number * string)) :
  ((forall j, j < List.length l -> flt (total acc (firstn j l)) r = true)
   <-> val_imgs (greedy_walk r acc l) = [])
  /\ (val_imgs (greedy_walk r acc l) = [] ->
      train_imgs (greedy_walk r acc l) = map snd l).
Proof.
  destruct (greedy_walk_threshold r acc l) as (k & Hk & Ht & Hv & _ & Hlt & Hge).
  assert (Hall : val_imgs (greedy_walk r acc l) = [] -> k = List.length l).
  { rewrite Hv. intros He. apply (f_equal (@List.length _)) in He.
    rewrite length_map, length_skipn in He. cbn in He. lia. }
  split; [split|].
  - intros Hbelow. rewrite Hv.
    destruct (Nat.eq_dec k (List.length l)) as [->|Hne].
    + now rewrite skipn_all.
    + assert (Hk' : k < List.length l) by lia.
      rewrite Hbelow in Hge by auto. specialize (Hge Hk'). discriminate.
  - intros He j Hj. apply Hlt. rewrite (Hall He). exact Hj.
  - intros He. rewrite Ht, (Hall He). now rewrite firstn_all.
Qed.

(** ** The order of the walk *)

Section WalkOrderFacts.
Context {N : Number} {G : Shapely N}.
Implicit Types (I : Inputs) (img : string).

Lemma by_coverage_scenes I :
  Permutation (map snd (by_coverage I)) (intersecting_images I).
Proof.
  unfold by_coverage. rewrite sort_reverse_perm, map_map. cbn [snd].
  now rewrite map_id.
Qed.

Lemma by_coverage_In I img :
  In img (intersecting_images I) -> In (coverage I img, img) (by_coverage I).
Proof.
  intros Hin. unfold by_coverage.
  apply (Permutation_in _ (Permutation_sym (sort_reverse_perm _))).
  apply in_map_iff. eauto.
Qed.

Lemma by_coverage_nonempty I :
  is_nil (intersecting_images I) = false ->
  exists c scene rest, by_coverage I = (c, scene) :: rest.
Proof.
  intros Hne. destruct (by_coverage I) as [|[c scene] rest] eqn:E; eauto.
  destruct (intersecting_images I) as [|img l] eqn:El; [discriminate|].
  pose proof (by_coverage_In I img) as Hin. rewrite El, E in Hin.
  destruct Hin. now left.
Qed.

Context {L : NumberLaws N}.

(** Where no coverage is NaN the walk goes down in coverage. *)
Lemma by_coverage_descending I :
  Forall (fun img => fle (coverage I img) (coverage I img) = true)
    (intersecting_images I) ->
  StronglySorted descending (by_coverage I).
Proof.
  intros Hord. unfold by_coverage. apply sort_reverse_descending.
  unfold ordered_keys. apply Forall_map. exact Hord.
Qed.

(** The first scene of the walk is one of greatest coverage. *)
Lemma by_coverage_first I (c : number) (scene : string)
    (rest : list (number * string)) :
  Forall (fun img => fle (coverage I img) (coverage I img) = true)
    (intersecting_images I) ->
  by_coverage I = (c, scene) :: rest ->
  forall img, In img (intersecting_images I) ->
              fle (coverage I img) (coverage I scene) = true.
Proof.
  intros Hord Hfirst img Hin.
  destruct (by_coverage_keys I c scene) as [-> _]; [rewrite Hfirst; now left|].
  pose proof (by_coverage_descending I Hord) as Hs. rewrite Hfirst in Hs.
  apply StronglySorted_inv in Hs as [_ Hall].
  pose proof (by_coverage_In I img Hin) as Hi. rewrite Hfirst in Hi.
  destruct Hi as [[= <- <-]|Hi].
  - rewrite Forall_forall in Hord. now apply Hord.
  - rewrite Forall_forall in Hall. apply (Hall _ Hi).
Qed.

End WalkOrderFacts.

(** ** Sums in exact arithmetic *)

Section ExactSums.
#[local] Existing Instance rational.

Lemma rational_total (acc : Q) (l : list (Q * string)) :
  (total acc l == acc + fold_right Qplus 0 (map fst l))%Q.
Proof.
  unfold total. revert acc. induction l as [|[c s] l IH]; intros acc; cbn.
  - ring.
  - rewrite IH. cbn. ring.
Qed.

Lemma rational_sum_perm (l l' : list Q) :
  Permutation l l' ->
  (fold_right Qplus 0 l == fold_right Qplus 0 l')%Q.
Proof.
  induction 1 as [|x l l' Hp IH|x y l|l l' l'' H1 IH1 H2 IH2]; cbn.
  - reflexivity.
  - now rewrite IH.
  - ring.
  - now rewrite IH1.
Qed.

(** Without rounding the order of a sum does not matter: the sum the walk
    would reach is the sum of the fractions. *)
Lemma rational_walk_sum {G : Shapely rational} (I : Inputs) :
  (total fzero (by_coverage I) == fractions_sum I)%Q.
Proof.
  assert (E : fractions_sum I
              = total fzero (map (fun img => (coverage I img, img))
                               (intersecting_images I))).
  { unfold fractions_sum, total. now rewrite map_map. }
  rewrite E, !rational_total. apply Qplus_comp; [reflexivity|].
  apply rational_sum_perm, Permutation_map. unfold by_coverage.
  exact (@sort_reverse_perm rational string _).
Qed.

End ExactSums.

(** * The split planner *)

Lemma NoDup_app_disjoint {A} (l l' : list A) (x : A) :
  NoDup (l ++ l') -> In x l -> In x l' -> False.
Proof.
  induction l as [|y l IH]; simpl; [tauto|].
  intros Hn [->|Hl] Hl'; inversion Hn as [|? ? Hy Hn']; subst; auto.
  apply Hy. apply in_or_app. auto.
Qed.

(** C1.  The split cell sorts the scenes by descending coverage and walks
    them with an accumulator that starts at 0: a scene goes to training,
    and its coverage is added, when the accumulator before it is below the
    ratio, and to validation otherwise ([greedy_walk]); the cell raises
    only on a division by an AOI area of zero.  The order of the walk is a
    rearrangement of the scenes that meet the AOI, each with its coverage,
    in which no scene stands before one of greater coverage, however the
    scenes are listed (coverages that are NaN apart).  For scenes A, B and
    C covering 0.5, 0.3 and 0.2 of the region and the ratio 0.8, training
    is A, B and validation is C, whether they are listed A, B, C or C, B,
    A. *)
Theorem split_is_greedy_walk :
  (forall (N : Number) (G : Shapely N) (ratio : number) (I : Inputs)
          (fs : files),
      split ratio I fs
      = if fis_zero (area (aoi I)) && negb (is_nil (intersecting_images I))
        then (inl ZeroDivisionError, fs)
        else (inr (greedy_walk ratio fzero (by_coverage I)), fs))
  /\ (forall (N : Number) (G : Shapely N) (L : NumberLaws N) (I : Inputs),
        Permutation (map snd (by_coverage I)) (intersecting_images I)
        /\ (forall c img, In (c, img) (by_coverage I) -> c = coverage I img)
        /\ (Forall (fun img => fle (coverage I img) (coverage I img) = true)
              (intersecting_images I) ->
            StronglySorted descending (by_coverage I)))
  /\ (@by_coverage binary64 float_boxes three_scenes
      = [ (0.5%float, mosaic "A.tif");
          (0x1.3333333333333p-2%float, mosaic "B.tif");
          (0x1.999999999999ap-3%float, mosaic "C.tif") ]
      /\ @split binary64 float_boxes ratio_literal three_scenes []
         = (inr (@Build_Split binary64
                   [mosaic "A.tif"; mosaic "B.tif"] [mosaic "C.tif"]
                   0x1.999999999999ap-1%float), []))
  /\ (@intersecting_images binary64 float_boxes three_scenes_backwards
      = [mosaic "C.tif"; mosaic "B.tif"; mosaic "A.tif"]
      /\ @by_coverage binary64 float_boxes three_scenes_backwards
         = [ (0.5%float, mosaic "A.tif");
             (0x1.3333333333333p-2%float, mosaic "B.tif");
             (0x1.999999999999ap-3%float, mosaic "C.tif") ]
      /\ @split binary64 float_boxes ratio_literal three_scenes_backwards []
         = (inr (@Build_Split binary64
                   [mosaic "A.tif"; mosaic "B.tif"] [mosaic "C.tif"]
                   0x1.999999999999ap-1%float), [])).
Proof.
  split; [|split; [|split]].
  - intros. apply split_run.
  - intros N G L I. split; [apply by_coverage_scenes|]. split.
    + intros c img Hin. now apply by_coverage_keys in Hin.
    + apply by_coverage_descending.
  - split; vm_compute; reflexivity.
  - repeat split; vm_compute; reflexivity.
Qed.

(** C3.  Whatever the ratio, the split puts every scene that meets the AOI
    in exactly one of the two groups: training followed by validation is a
    rearrangement of the scenes without repetition, so the two sizes add up
    to the number of scenes. *)
Theorem split_partitions_scenes (N : Number) (G : Shapely N)
    (ratio : number) (I : Inputs) (fs : files) :
  fis_zero (area (aoi I)) = false ->
  exists s,
    split ratio I fs = (inr s, fs)
    /\ Permutation (train_imgs s ++ val_imgs s) (intersecting_images I)
    /\ NoDup (train_imgs s ++ val_imgs s)
    /\ List.length (train_imgs s) + List.length (val_imgs s)
       = List.length (intersecting_images I)
    /\ (forall img,
          In img (intersecting_images I) ->
          (In img (train_imgs s) /\ ~ In img (val_imgs s))
          \/ (In img (val_imgs s) /\ ~ In img (train_imgs s))).
Proof.
  intros Hz. exists (greedy_walk ratio fzero (by_coverage I)).
  set (s := greedy_walk ratio fzero (by_coverage I)).
  assert (Hp : Permutation (train_imgs s ++ val_imgs s) (intersecting_images I)).
  { unfold s. rewrite greedy_walk_perm. unfold by_coverage.
    rewrite sort_reverse_perm, map_map. cbn [snd]. now rewrite map_id. }
  assert (Hn : NoDup (train_imgs s ++ val_imgs s)).
  { apply (Permutation_NoDup (Permutation_sym Hp)), intersecting_NoDup. }
  repeat split; auto.
  - rewrite split_run, Hz. reflexivity.
  - rewrite <- length_app. now apply Permutation_length.
  - intros img Hin. apply (Permutation_in _ (Permutation_sym Hp)) in Hin.
    apply in_app_or in Hin as [Ht|Hv]; [left|right]; split; auto;
      intros Ho; eapply NoDup_app_disjoint; eauto.
Qed.

(** C6, as the code has it.  What the loop compares with the ratio is its
    own accumulator: the coverage fractions added one by one in the order
    of the walk, each sum rounded as the arithmetic rounds it.  Every scene
    goes to training and validation is empty exactly when that accumulator
    is below the ratio before each scene.  In exact arithmetic this is so
    whenever the fractions, none of them negative, sum to less than the
    ratio.  Three scenes covering 0.1 each end up in training with the
    ratio 0.8, on doubles too. *)
Theorem under_ratio_all_training :
  (forall (N : Number) (G : Shapely N) (ratio : number) (I : Inputs)
          (fs : files),
      fis_zero (area (aoi I)) = false ->
      exists s,
        split ratio I fs = (inr s, fs)
        /\ ((forall j, j < List.length (by_coverage I) ->
                       flt (total fzero (firstn j (by_coverage I))) ratio
                       = true)
            <-> val_imgs s = [])
        /\ (val_imgs s = [] ->
            train_imgs s = map snd (by_coverage I)
            /\ Permutation (train_imgs s) (intersecting_images I)))
  /\ (forall (G : Shapely rational) (ratio : @number rational)
             (I : @Inputs rational G) (fs : @files rational),
        fis_zero (area (aoi I)) = false ->
        Forall (fun img => fle fzero (coverage I img) = true)
          (intersecting_images I) ->
        flt (fractions_sum I) ratio = true ->
        exists s,
          split ratio I fs = (inr s, fs)
          /\ train_imgs s = map snd (by_coverage I)
          /\ Permutation (train_imgs s) (intersecting_images I)
          /\ val_imgs s = [])
  /\ (@by_coverage binary64 float_boxes tenths
      = [ (0x1.999999999999ap-4%float, mosaic "A.tif");
          (0x1.999999999999ap-4%float, mosaic "B.tif");
          (0x1.999999999999ap-4%float, mosaic "C.tif") ]
      /\ @split binary64 float_boxes ratio_literal tenths []
         = (inr (@Build_Split binary64
                   [mosaic "A.tif"; mosaic "B.tif"; mosaic "C.tif"] []
                   0x1.3333333333334p-2%float), [])).
Proof.
  split; [|split].
  - intros N G ratio I fs Hz.
    exists (greedy_walk ratio fzero (by_coverage I)).
    destruct (greedy_walk_all_training ratio fzero (by_coverage I))
      as [Hiff Htrain].
    split; [rewrite split_run, Hz; reflexivity|]. split; [exact Hiff|].
    intros He. rewrite (Htrain He). split; auto. apply by_coverage_scenes.
  - intros G ratio I fs Hz Hpos Hsum.
    exists (greedy_walk ratio fzero (by_coverage I)).
    rewrite split_run, Hz. cbn [andb].
    rewrite (@greedy_walk_under rational rational_laws rational_monotone).
    + cbn [train_imgs val_imgs]. repeat split; auto.
      exact (by_coverage_scenes I).
    + apply (@fle_zero rational rational_laws).
    + unfold by_coverage.
      apply (@Permutation_Forall _ _ _ _
               (Permutation_sym (@sort_reverse_perm rational string _))).
      apply Forall_map. exact Hpos.
    + pose proof (rational_walk_sum I) as E.
      unfold flt, rational in Hsum |- *.
      apply negb_true_iff, Qle_bool_false in Hsum.
      apply negb_true_iff, Qle_bool_false.
      now rewrite E.
  - split; vm_compute; reflexivity.
Qed.

(** C7.  When the first scene in the order of the walk covers at least the
    ratio, which is positive, it is the whole training group and every
    other scene goes to validation.  That scene is one that meets the AOI
    and, coverages that are NaN apart, none covers more than it, wherever
    it stands in the listing.  A single scene covering all of the region is
    alone in training and validation is empty; of a scene covering 0.1
    listed before one covering 0.9, the second is alone in training. *)
Theorem dominant_scene_trains_alone :
  (forall (N : Number) (G : Shapely N) (L : NumberLaws N)
          (ratio : number) (I : Inputs) (fs : files)
          (c : number) (scene : string) (rest : list (number * string)),
      fis_zero (area (aoi I)) = false ->
      flt fzero ratio = true ->
      by_coverage I = (c, scene) :: rest ->
      fle ratio c = true ->
      split ratio I fs
      = (inr {| train_imgs := [scene]; val_imgs := map snd rest;
                train_area_covered := fadd fzero c |}, fs)
      /\ Permutation (scene :: map snd rest) (intersecting_images I)
      /\ c = coverage I scene
      /\ (Forall (fun img => fle (coverage I img) (coverage I img) = true)
            (intersecting_images I) ->
          forall img, In img (intersecting_images I) ->
                      fle (coverage I img) (coverage I scene) = true))
  /\ (@flt binary64 fzero ratio_literal = true
      /\ @by_coverage binary64 float_boxes single_scene
         = [(1%float, mosaic "X.tif")]
      /\ @split binary64 float_boxes ratio_literal single_scene []
         = (inr (@Build_Split binary64 [mosaic "X.tif"] [] 1%float), []))
  /\ (@intersecting_images binary64 float_boxes dominant_listed_last
      = [mosaic "A.tif"; mosaic "B.tif"]
      /\ @by_coverage binary64 float_boxes dominant_listed_last
         = [ (0x1.ccccccccccccdp-1%float, mosaic "B.tif");
             (0x1.999999999999ap-4%float, mosaic "A.tif") ]
      /\ @split binary64 float_boxes ratio_literal dominant_listed_last []
         = (inr (@Build_Split binary64 [mosaic "B.tif"] [mosaic "A.tif"]
                   0x1.ccccccccccccdp-1%float), [])).
Proof.
  split; [|split].
  - intros N G L ratio I fs c scene rest Hz Hr Hfirst Hc.
    split; [|split; [|split]].
    + rewrite split_run, Hz, Hfirst. cbn [andb greedy_walk]. rewrite Hr.
      rewrite greedy_walk_full; auto.
      apply fle_not_flt. now apply fadd_zero_le.
    + change (scene :: map snd rest) with (map snd ((c, scene) :: rest)).
      rewrite <- Hfirst. apply by_coverage_scenes.
    + apply (by_coverage_keys I c scene). rewrite Hfirst. now left.
    + intros Hord. now apply (by_coverage_first I c scene rest).
  - repeat split; vm_compute; reflexivity.
  - repeat split; vm_compute; reflexivity.
Qed.

(** *** The order of the walk *)

(** Two scenes that cover half of the region each are walked in the order
    of the listing: [east/z.tif] before [west/a.tif] although its basename
    [z] comes after [a], and [b.tif] before [a.tif] where the listing has
    them so. *)
Lemma ties_keep_listing_order :
  @by_coverage binary64 float_boxes tied_scenes
  = [ (0.5%float, mosaic "east/z.tif"); (0.5%float, mosaic "west/a.tif") ]
  /\ (label_basename (mosaic "east/z.tif"), label_basename (mosaic "west/a.tif"))
     = ("z", "a")
  /\ @ties_ascending binary64 label_basename
       (@by_coverage binary64 float_boxes tied_scenes) = false
  /\ @by_coverage binary64 float_boxes tied_unsorted
     = [ (0.5%float, mosaic "b.tif"); (0.5%float, mosaic "a.tif") ]
  /\ @ties_ascending binary64 (fun img => img)
       (@by_coverage binary64 float_boxes tied_unsorted) = false.
Proof. repeat split; vm_compute; reflexivity. Qed.

Lemma filter_keyed {N : Number} (p : number * string -> bool)
    (c : string -> number) (l : list string) :
  map snd (filter p (map (fun img => (c img, img)) l))
  = filter (fun img => p (c img, img)) l.
Proof.
  induction l as [|img l IH]; simpl; auto.
  destruct (p (c img, img)); simpl; now rewrite IH.
Qed.

(** C5, as the code has it.  The walk visits the scenes that meet the AOI,
    each with its coverage, in descending order of coverage; scenes whose
    coverage is tied keep the order they have among the intersecting
    scenes, which is the order of the listing.  No identifier is
    compared. *)
Theorem walk_order_descending_stable (N : Number) (G : Shapely N)
    (L : NumberLaws N) (I : Inputs) :
  Forall (fun img => fle (coverage I img) (coverage I img) = true)
    (intersecting_images I) ->
  Permutation (map snd (by_coverage I)) (intersecting_images I)
  /\ Forall (fun x => fst x = coverage I (snd x)) (by_coverage I)
  /\ StronglySorted (fun x y => fle (fst y) (fst x) = true) (by_coverage I)
  /\ (forall k,
        fle k k = true ->
        map snd (filter (tied k) (by_coverage I))
        = filter (fun img => tied k (coverage I img, img))
            (intersecting_images I)).
Proof.
  intros Hord. unfold by_coverage.
  set (keyed := map (fun img => (coverage I img, img)) (intersecting_images I)).
  assert (Hk : ordered_keys keyed).
  { unfold ordered_keys, keyed. apply Forall_map. exact Hord. }
  repeat split.
  - rewrite sort_reverse_perm. unfold keyed. rewrite map_map. cbn [snd].
    now rewrite map_id.
  - apply (@Permutation_Forall _ _ _ _ (Permutation_sym (sort_reverse_perm _))).
    unfold keyed. apply Forall_map, Forall_forall. reflexivity.
  - now apply sort_reverse_descending.
  - intros k Hkk. rewrite sort_reverse_stable by auto. apply filter_keyed.
Qed.

(** * Labels per scene *)

Section LabelTheorems.
Context {N : Number} {G : Shapely N}.
Implicit Types (I : Inputs) (img : string) (f : json).

Lemma raw_features_ok (lj : json) f :
  labels_ok lj = true -> In f (raw_features lj) -> feature_ok f = true.
Proof.
  intros Hok Hin.
  destruct (labels_ok_inv _ Hok) as (d & raw & crs & -> & Hf & Hc & Hraw).
  cbn [raw_features] in Hin. rewrite Hf in Hin.
  rewrite forallb_forall in Hraw. auto.
Qed.

Lemma feature_ok_geometry f :
  feature_ok f = true ->
  exists gj g, geometry_of f = Some gj /\ shape gj = Some g.
Proof.
  destruct f as [| | | | | |fd]; try discriminate. cbn.
  destruct (dict_get fd "properties") as [[| | | | | |props]|]; try discriminate.
  destruct (dict_get fd "geometry") as [gj|]; try discriminate.
  destruct (shape gj) as [g|] eqn:E; try discriminate. eauto.
Qed.

Lemma classed_has_class f : feature_ok f = true -> has_class (classed f).
Proof.
  destruct f as [| | | | | |fd]; try discriminate. cbn.
  destruct (dict_get fd "properties") as [[| | | | | |props]|] eqn:Hp;
    try discriminate.
  intros _.
  set (props' := dict_set (dict_set props "class_id" (JInt 1))
                   "class_name" (JStr "building")).
  exists (dict_set fd "properties" (JDict props')), props'. repeat split.
  - apply dict_get_set_same.
  - unfold props'. rewrite dict_get_set_other by discriminate.
    apply dict_get_set_same.
  - apply dict_get_set_same.
Qed.

Lemma classed_differs f : feature_ok f = true -> differ_in_class_only f (classed f).
Proof.
  destruct f as [| | | | | |fd]; try discriminate. cbn.
  destruct (dict_get fd "properties") as [[| | | | | |props]|] eqn:Hp;
    try discriminate.
  intros _.
  set (props' := dict_set (dict_set props "class_id" (JInt 1))
                   "class_name" (JStr "building")).
  exists fd, (dict_set fd "properties" (JDict props')), props, props'.
  repeat split.
  - rewrite dict_keys_set.
    destruct (in_dec string_dec "properties" (dict_keys fd)) as [|Hn]; auto.
    exfalso. apply Hn. eapply dict_get_keys; eauto.
  - intros k Hk. apply dict_get_set_other. congruence.
  - exact Hp.
  - apply dict_get_set_same.
  - intros k H1 H2. unfold props'. rewrite !dict_get_set_other; congruence.
Qed.

(** C2.  On a well-formed label file the label cells run through, and for
    every scene that meets the AOI and every label feature, the feature
    (with its class) is in the scene's collection exactly when its geometry
    intersects the scene's bounding polygon; the collection holds nothing
    else.  So a feature that intersects several scenes is in the collection
    of each. *)
Theorem features_by_intersection I (fs : files) :
  labels_ok (label_js I) = true ->
  exists image_to_features,
    fst (prepare_labels I fs) = inr image_to_features
    /\ dict_keys image_to_features = intersecting_images I
    /\ (forall img f,
          In img (intersecting_images I) ->
          In f (raw_features (label_js I)) ->
          exists gj g found,
            geometry_of f = Some gj /\ shape gj = Some g
            /\ dict_get image_to_features img = Some found
            /\ In (label_file img,
                   JsonDump (feature_collection (crs_of (label_js I)) found))
                 (snd (prepare_labels I fs))
            /\ (In (classed f) found <-> intersects g (extent I img) = true))
    /\ (forall img found f',
          dict_get image_to_features img = Some found -> In f' found ->
          exists f, In f (raw_features (label_js I)) /\ f' = classed f)
    /\ (forall f scenes,
          In f (raw_features (label_js I)) ->
          (forall img, In img scenes ->
                       In img (intersecting_images I)
                       /\ hits (extent I img) f = true) ->
          forall img, In img scenes ->
            exists found,
              dict_get image_to_features img = Some found
              /\ In (classed f) found).
Proof.
  intros Hok. rewrite (prepare_labels_run I fs Hok). cbn [fst snd].
  eexists. split; [reflexivity|]. repeat split.
  - unfold dict_keys. rewrite map_map. cbn [fst]. apply map_id.
  - intros img f Himg Hf.
    pose proof (raw_features_ok _ _ Hok Hf) as Hfok.
    destruct (feature_ok_geometry _ Hfok) as (gj & g & Hg & Hs).
    exists gj, g, (scene_features I img). repeat split; auto.
    + now apply (dict_get_map (scene_features I)).
    + apply in_or_app. right.
      apply (in_map
               (fun img =>
                  (label_file img,
                   JsonDump (feature_collection (crs_of (label_js I))
                               (scene_features I img))))).
      exact Himg.
    + unfold scene_features. intros Hin. apply filter_In in Hin as [_ Hh].
      rewrite hits_classed in Hh. unfold hits in Hh. now rewrite Hg, Hs in Hh.
    + intros Hi. unfold scene_features. apply filter_In. split.
      * now apply in_map.
      * rewrite hits_classed. unfold hits. now rewrite Hg, Hs.
  - intros img found f' Hget Hin.
    apply dict_get_In, in_map_iff in Hget as [x [[= <- <-] _]].
    unfold scene_features in Hin. apply filter_In in Hin as [Hin _].
    apply in_map_iff in Hin as [f [<- Hf]]. eauto.
  - intros f scenes Hf Hall img Himg. destruct (Hall img Himg) as [Hi Hh].
    exists (scene_features I img). split.
    + now apply (dict_get_map (scene_features I)).
    + unfold scene_features. apply filter_In. split.
      * now apply in_map.
      * now rewrite hits_classed.
Qed.

Lemma written_collection I path c :
  labels_ok (label_js I) = true ->
  In (path, c) (snd (prepare_labels I [])) ->
  exists img,
    In img (intersecting_images I) /\ path = label_file img
    /\ c = JsonDump (feature_collection (crs_of (label_js I))
                       (scene_features I img)).
Proof.
  intros Hok. rewrite (prepare_labels_run I [] Hok). cbn [snd app].
  intros Hin. apply in_map_iff in Hin as [img [[= <- <-] Himg]]. eauto.
Qed.

(** C8.  The injection loop runs once over the whole label collection,
    before the features are matched to scenes, and leaves [class_id = 1]
    and [class_name = 'building'] in the properties of every feature.  The
    features of every collection written are features of that list as they
    are, so each of them carries the two properties. *)
Theorem output_features_carry_class I :
  labels_ok (label_js I) = true ->
  exists label_js',
    add_classes (label_js I) [] = (inr label_js', [])
    /\ raw_features label_js' = map classed (raw_features (label_js I))
    /\ Forall has_class (raw_features label_js')
    /\ (forall path c,
          In (path, c) (snd (prepare_labels I [])) ->
          exists crs features,
            c = JsonDump (feature_collection crs features)
            /\ incl features (raw_features label_js')
            /\ Forall has_class features).
Proof.
  intros Hok.
  destruct (labels_ok_inv _ Hok) as (d & raw & crs & Hd & Hf & Hc & Hraw).
  assert (Hall : Forall has_class (map classed raw)).
  { apply Forall_map, Forall_forall. intros f Hin. apply classed_has_class.
    rewrite forallb_forall in Hraw. auto. }
  exists (JDict (dict_set d "features" (JList (map classed raw)))).
  assert (Hraw' : raw_features (label_js I) = raw).
  { rewrite Hd. cbn. now rewrite Hf. }
  repeat split.
  - rewrite Hd. now apply add_classes_run.
  - cbn [raw_features]. now rewrite dict_get_set_same, Hraw'.
  - cbn [raw_features]. now rewrite dict_get_set_same.
  - intros path c Hin.
    destruct (written_collection I path c Hok Hin) as (img & _ & _ & ->).
    exists (crs_of (label_js I)), (scene_features I img).
    cbn [raw_features]. rewrite dict_get_set_same.
    unfold scene_features. rewrite Hraw'. repeat split.
    + intros f Hf'. now apply filter_In in Hf' as [Hf' _].
    + apply Forall_forall. intros f Hf'. apply filter_In in Hf' as [Hf' _].
      rewrite Forall_forall in Hall. auto.
Qed.

(** C9.  Every file the label cells write is a collection of type
    [FeatureCollection] whose [crs] is the one of the label file and whose
    features are features of the label file with the same geometry,
    different only in the two class properties; a feature that intersects
    two scenes is the same value in the collections of both. *)
Theorem collections_keep_crs_and_geometry I :
  labels_ok (label_js I) = true ->
  json_getitem (label_js I) "crs" [] = (inr (crs_of (label_js I)), [])
  /\ (forall path c,
        In (path, c) (snd (prepare_labels I [])) ->
        exists features,
          c = JsonDump (JDict [ ("type", JStr "FeatureCollection");
                                ("crs", crs_of (label_js I));
                                ("features", JList features) ])
          /\ forall f',
               In f' features ->
               exists f,
                 In f (raw_features (label_js I))
                 /\ f' = classed f
                 /\ geometry_of f' = geometry_of f
                 /\ differ_in_class_only f f')
  /\ (forall img1 img2 f,
        In img1 (intersecting_images I) -> In img2 (intersecting_images I) ->
        In f (raw_features (label_js I)) ->
        hits (extent I img1) f = true -> hits (extent I img2) f = true ->
        exists features1 features2,
          In (label_file img1,
              JsonDump (feature_collection (crs_of (label_js I)) features1))
            (snd (prepare_labels I []))
          /\ In (label_file img2,
                 JsonDump (feature_collection (crs_of (label_js I)) features2))
               (snd (prepare_labels I []))
          /\ In (classed f) features1 /\ In (classed f) features2).
Proof.
  intros Hok. repeat split.
  - destruct (labels_ok_inv _ Hok) as (d & raw & crs & Hd & Hf & Hc & Hraw).
    rewrite Hd. cbn. unfold getitem. now rewrite Hc.
  - intros path c Hin.
    destruct (written_collection I path c Hok Hin) as (img & _ & _ & ->).
    exists (scene_features I img). split; [reflexivity|].
    intros f' Hf'. unfold scene_features in Hf'.
    apply filter_In in Hf' as [Hf' _].
    apply in_map_iff in Hf' as [f [<- Hf]]. exists f.
    pose proof (raw_features_ok _ _ Hok Hf) as Hfok.
    repeat split; auto using geometry_classed, classed_differs.
  - intros img1 img2 f H1 H2 Hf Hh1 Hh2.
    exists (scene_features I img1), (scene_features I img2).
    rewrite (prepare_labels_run I [] Hok). cbn [snd app].
    repeat split.
    + apply (in_map
               (fun img =>
                  (label_file img,
                   JsonDump (feature_collection (crs_of (label_js I))
                               (scene_features I img))))).
      exact H1.
    + apply (in_map
               (fun img =>
                  (label_file img,
                   JsonDump (feature_collection (crs_of (label_js I))
                               (scene_features I img))))).
      exact H2.
    + apply filter_In. split; [now apply in_map|now rewrite hits_classed].
    + apply filter_In. split; [now apply in_map|now rewrite hits_classed].
Qed.


(** C10, as the code has it.  On a well-formed label file the label cells
    write one collection per scene that meets the AOI, in order, to the
    file named after the scene's basename; a scene that no feature
    intersects gets a collection with an empty feature list.  The files
    correspond one to one with the scenes when no two scenes share a
    basename. *)
Theorem one_collection_per_scene I :
  labels_ok (label_js I) = true ->
  snd (prepare_labels I [])
  = map (fun img =>
           (label_file img,
            JsonDump (feature_collection (crs_of (label_js I))
                        (scene_features I img))))
      (intersecting_images I)
  /\ (forall img,
        In img (intersecting_images I) ->
        (forall f, In f (raw_features (label_js I)) ->
                   hits (extent I img) f = false) ->
        In (label_file img,
            JsonDump (JDict [ ("type", JStr "FeatureCollection");
                              ("crs", crs_of (label_js I));
                              ("features", JList []) ]))
          (snd (prepare_labels I [])))
  /\ (NoDup (map label_basename (intersecting_images I)) ->
      NoDup (map fst (snd (prepare_labels I [])))
      /\ List.length (snd (prepare_labels I []))
         = List.length (intersecting_images I)).
Proof.
  intros Hok. rewrite (prepare_labels_run I [] Hok). cbn [snd app].
  repeat split.
  - intros img Himg Hnone.
    assert (He : scene_features I img = []).
    { unfold scene_features.
      induction (raw_features (label_js I)) as [|f l IH]; auto.
      cbn [map filter]. rewrite hits_classed, Hnone by (now left).
      apply IH. intros f' Hf'. apply Hnone. now right. }
    rewrite <- He.
    apply (in_map
             (fun img =>
                (label_file img,
                 JsonDump (feature_collection (crs_of (label_js I))
                             (scene_features I img))))).
    exact Himg.
  - rewrite map_map. cbn [fst].
    revert H. induction (intersecting_images I) as [|img l IH]; cbn [map].
    + constructor.
    + intros Hn. inversion Hn as [|? ? Hx Hn']; subst. constructor; auto.
      intros Hin. apply Hx. apply in_map_iff in Hin as [x [Hx' Hin]].
      apply label_file_inj in Hx'. rewrite <- Hx'. now apply in_map.
  - now rewrite length_map.
Qed.


(** C4, as the code has it.  When no scene meets the AOI the notebook
    raises nothing on that account: on a well-formed label file it runs
    through, writes no label file, and writes both scene lists with no
    row. *)
Theorem no_scene_runs_through I :
  labels_ok (label_js I) = true ->
  intersecting_images I = [] ->
  notebook I []
  = (inr ([], {| train_imgs := []; val_imgs := [];
                 train_area_covered := fzero |}),
     [ (training_scenes_csv, Text ""); (val_scenes_csv, Text "") ]).
Proof.
  intros Hok Hnone. unfold notebook.
  unfold bind at 1. rewrite (prepare_labels_run I [] Hok), Hnone. cbn [map app].
  unfold bind at 1. rewrite split_run, Hnone.
  cbn [is_nil negb andb]. rewrite andb_false_r.
  unfold by_coverage. rewrite Hnone. cbn.
  reflexivity.
Qed.

End LabelTheorems.

(** Two scenes of one basename are written to one file: the second
    collection replaces the first. *)
Lemma same_basename_one_file :
  @labels_ok binary64 float_boxes (label_js same_basename) = true
  /\ @intersecting_images binary64 float_boxes same_basename
     = [mosaic "2016/tile.tif"; mosaic "2017/tile.tif"]
  /\ map fst (snd (@prepare_labels binary64 float_boxes same_basename []))
     = [ "/opt/data/spacenet/rio/processed_labels/tile.geojson";
         "/opt/data/spacenet/rio/processed_labels/tile.geojson" ]
  /\ ~ NoDup (map fst (snd (@prepare_labels binary64 float_boxes
                             same_basename []))).
Proof.
  repeat split; try (vm_compute; reflexivity).
  intros H. vm_compute in H. inversion H as [|? ? Hn _]. apply Hn. now left.
Qed.

(** No scene meets the region, and the run ends without an error, having
    written both scene lists, empty. *)
Lemma no_scene_empty_lists :
  @intersecting_images binary64 float_boxes disjoint_scenes = []
  /\ @notebook binary64 float_boxes disjoint_scenes []
     = (inr ([], @Build_Split binary64 [] [] 0%float),
        [ ("/opt/data/spacenet/rio/training_scenes.csv", Text "");
          ("/opt/data/spacenet/rio/val_scenes.csv", Text "") ]).
Proof. split; vm_compute; reflexivity. Qed.

(** Four strips covering 0.05, 0.05, 0.7 and a sliver of the region.  Their
    coverages sum to less than 0.8, without rounding and as [sum] rounds
    them in the order of the listing; the walk adds 0.7, 0.05 and 0.05,
    reaches the double 0.8 and sends the sliver to validation. *)
Lemma rounded_sum_reaches_ratio :
  @intersecting_images binary64 float_boxes rounding_strips
  = [mosaic "S1.tif"; mosaic "S2.tif"; mosaic "S3.tif"; mosaic "S4.tif"]
  /\ map (@coverage binary64 float_boxes rounding_strips)
       [mosaic "S1.tif"; mosaic "S2.tif"; mosaic "S3.tif"; mosaic "S4.tif"]
     = [ 0x1.999999999999ap-5%float; 0x1.999999999999ap-5%float;
         0x1.6666666666666p-1%float; 0x1.999999999999ap-64%float ]
  /\ exact_sum_below
       [ 0x1.999999999999ap-5%float; 0x1.999999999999ap-5%float;
         0x1.6666666666666p-1%float; 0x1.999999999999ap-64%float ]
       (4 # 5)
  /\ exact_value (@ratio_literal binary64)
     = Some (7205759403792794 # 9007199254740992)%Q
  /\ (4 # 5 < 7205759403792794 # 9007199254740992)%Q
  /\ @flt binary64 (@fractions_sum binary64 float_boxes rounding_strips)
       ratio_literal = true
  /\ @split binary64 float_boxes ratio_literal rounding_strips []
     = (inr (@Build_Split binary64
               [mosaic "S3.tif"; mosaic "S1.tif"; mosaic "S2.tif"]
               [mosaic "S4.tif"] 0x1.999999999999ap-1%float), []).
Proof. repeat split; vm_compute; reflexivity. Qed.

(** * The theorems at concrete runs *)

Section FloatWitnesses.
#[local] Existing Instance binary64.
#[local] Existing Instance float_boxes.

Lemma features_by_intersection_three_scenes :
  labels_ok (label_js three_scenes) = true
  /\ exists image_to_features,
       fst (prepare_labels three_scenes []) = inr image_to_features
       /\ dict_keys image_to_features = intersecting_images three_scenes
       /\ (forall img f,
             In img (intersecting_images three_scenes) ->
             In f (raw_features (label_js three_scenes)) ->
             exists gj g found,
               geometry_of f = Some gj /\ shape gj = Some g
               /\ dict_get image_to_features img = Some found
               /\ In (label_file img,
                      JsonDump (feature_collection
                                  (crs_of (label_js three_scenes)) found))
                    (snd (prepare_labels three_scenes []))
               /\ (In (classed f) found
                   <-> intersects g (extent three_scenes img) = true))
       /\ (forall img found f',
             dict_get image_to_features img = Some found -> In f' found ->
             exists f, In f (raw_features (label_js three_scenes))
                       /\ f' = classed f)
       /\ (forall f scenes,
             In f (raw_features (label_js three_scenes)) ->
             (forall img, In img scenes ->
                          In img (intersecting_images three_scenes)
                          /\ hits (extent three_scenes img) f = true) ->
             forall img, In img scenes ->
               exists found,
                 dict_get image_to_features img = Some found
                 /\ In (classed f) found).
Proof.
  split; [vm_compute; reflexivity|].
  apply (features_by_intersection three_scenes []). vm_compute. reflexivity.
Defined.

Lemma split_partitions_three_scenes :
  fis_zero (area (aoi three_scenes)) = false
  /\ exists s,
       split ratio_literal three_scenes [] = (inr s, [])
       /\ Permutation (train_imgs s ++ val_imgs s)
            (intersecting_images three_scenes)
       /\ NoDup (train_imgs s ++ val_imgs s)
       /\ List.length (train_imgs s) + List.length (val_imgs s)
          = List.length (intersecting_images three_scenes)
       /\ (forall img,
             In img (intersecting_images three_scenes) ->
             (In img (train_imgs s) /\ ~ In img (val_imgs s))
             \/ (In img (val_imgs s) /\ ~ In img (train_imgs s))).
Proof.
  split; [vm_compute; reflexivity|].
  apply (split_partitions_scenes binary64 float_boxes ratio_literal
           three_scenes []).
  vm_compute. reflexivity.
Defined.

Lemma no_scene_runs_through_disjoint :
  labels_ok (label_js disjoint_scenes) = true
  /\ intersecting_images disjoint_scenes = []
  /\ notebook disjoint_scenes []
     = (inr ([], {| train_imgs := []; val_imgs := [];
                    train_area_covered := fzero |}),
        [ (training_scenes_csv, Text ""); (val_scenes_csv, Text "") ]).
Proof.
  split; [vm_compute; reflexivity|]. split; [vm_compute; reflexivity|].
  apply (no_scene_runs_through disjoint_scenes); vm_compute; reflexivity.
Defined.

Lemma walk_order_tied_scenes :
  Forall (fun img => fle (coverage tied_scenes img) (coverage tied_scenes img)
                     = true)
    (intersecting_images tied_scenes)
  /\ Permutation (map snd (by_coverage tied_scenes))
       (intersecting_images tied_scenes)
  /\ Forall (fun x => fst x = coverage tied_scenes (snd x))
       (by_coverage tied_scenes)
  /\ StronglySorted (fun x y => fle (fst y) (fst x) = true)
       (by_coverage tied_scenes)
  /\ (forall k,
        fle k k = true ->
        map snd (filter (tied k) (by_coverage tied_scenes))
        = filter (fun img => tied k (coverage tied_scenes img, img))
            (intersecting_images tied_scenes)).
Proof.
  assert (H : Forall (fun img => fle (coverage tied_scenes img)
                                   (coverage tied_scenes img) = true)
                (intersecting_images tied_scenes)).
  { assert (E : intersecting_images tied_scenes
                = [mosaic "east/z.tif"; mosaic "west/a.tif"])
      by (vm_compute; reflexivity).
    rewrite E. repeat (constructor; [vm_compute; reflexivity|]). constructor. }
  split; [exact H|].
  apply (walk_order_descending_stable binary64 float_boxes binary64_laws
           tied_scenes H).
Defined.

Lemma walk_order_listed_backwards :
  Forall (fun img => fle (coverage three_scenes_backwards img)
                       (coverage three_scenes_backwards img) = true)
    (intersecting_images three_scenes_backwards)
  /\ StronglySorted descending (by_coverage three_scenes_backwards).
Proof.
  assert (H : Forall (fun img => fle (coverage three_scenes_backwards img)
                                   (coverage three_scenes_backwards img) = true)
                (intersecting_images three_scenes_backwards)).
  { assert (E : intersecting_images three_scenes_backwards
                = [mosaic "C.tif"; mosaic "B.tif"; mosaic "A.tif"])
      by (vm_compute; reflexivity).
    rewrite E. repeat (constructor; [vm_compute; reflexivity|]). constructor. }
  split; [exact H|].
  apply (proj2 (proj2 (proj1 (proj2 split_is_greedy_walk) binary64 float_boxes
                         binary64_laws three_scenes_backwards))).
  exact H.
Defined.

Lemma dominant_scene_listed_last :
  fis_zero (area (aoi dominant_listed_last)) = false
  /\ flt fzero ratio_literal = true
  /\ by_coverage dominant_listed_last
     = [ (0x1.ccccccccccccdp-1%float, mosaic "B.tif");
         (0x1.999999999999ap-4%float, mosaic "A.tif") ]
  /\ fle ratio_literal 0x1.ccccccccccccdp-1%float = true
  /\ split ratio_literal dominant_listed_last []
     = (inr {| train_imgs := [mosaic "B.tif"];
               val_imgs := [mosaic "A.tif"];
               train_area_covered := fadd fzero 0x1.ccccccccccccdp-1%float |},
        [])
  /\ Permutation [mosaic "B.tif"; mosaic "A.tif"]
       (intersecting_images dominant_listed_last)
  /\ 0x1.ccccccccccccdp-1%float = coverage dominant_listed_last (mosaic "B.tif")
  /\ (Forall (fun img => fle (coverage dominant_listed_last img)
                           (coverage dominant_listed_last img) = true)
        (intersecting_images dominant_listed_last) ->
      forall img, In img (intersecting_images dominant_listed_last) ->
                  fle (coverage dominant_listed_last img)
                    (coverage dominant_listed_last (mosaic "B.tif")) = true).
Proof.
  do 4 (split; [vm_compute; reflexivity|]).
  apply (proj1 dominant_scene_trains_alone binary64 float_boxes binary64_laws
           ratio_literal dominant_listed_last [] 0x1.ccccccccccccdp-1%float
           (mosaic "B.tif") [(0x1.999999999999ap-4%float, mosaic "A.tif")]);
    vm_compute; reflexivity.
Defined.

Lemma carry_class_three_scenes :
  labels_ok (label_js three_scenes) = true
  /\ exists label_js',
       add_classes (label_js three_scenes) [] = (inr label_js', [])
       /\ raw_features label_js'
          = map classed (raw_features (label_js three_scenes))
       /\ Forall has_class (raw_features label_js')
       /\ (forall path c,
             In (path, c) (snd (prepare_labels three_scenes [])) ->
             exists crs features,
               c = JsonDump (feature_collection crs features)
               /\ incl features (raw_features label_js')
               /\ Forall has_class features).
Proof.
  split; [vm_compute; reflexivity|].
  apply (output_features_carry_class three_scenes). vm_compute. reflexivity.
Defined.

Lemma keep_crs_and_geometry_three_scenes :
  labels_ok (label_js three_scenes) = true
  /\ json_getitem (label_js three_scenes) "crs" []
     = (inr (crs_of (label_js three_scenes)), [])
  /\ (forall path c,
        In (path, c) (snd (prepare_labels three_scenes [])) ->
        exists features,
          c = JsonDump (JDict [ ("type", JStr "FeatureCollection");
                                ("crs", crs_of (label_js three_scenes));
                                ("features", JList features) ])
          /\ forall f',
               In f' features ->
               exists f,
                 In f (raw_features (label_js three_scenes))
                 /\ f' = classed f
                 /\ geometry_of f' = geometry_of f
                 /\ differ_in_class_only f f')
  /\ (forall img1 img2 f,
        In img1 (intersecting_images three_scenes) ->
        In img2 (intersecting_images three_scenes) ->
        In f (raw_features (label_js three_scenes)) ->
        hits (extent three_scenes img1) f = true ->
        hits (extent three_scenes img2) f = true ->
        exists features1 features2,
          In (label_file img1,
              JsonDump (feature_collection (crs_of (label_js three_scenes))
                          features1))
            (snd (prepare_labels three_scenes []))
          /\ In (label_file img2,
                 JsonDump (feature_collection (crs_of (label_js three_scenes))
                             features2))
               (snd (prepare_labels three_scenes []))
          /\ In (classed f) features1 /\ In (classed f) features2).
Proof.
  split; [vm_compute; reflexivity|].
  apply (collections_keep_crs_and_geometry three_scenes).
  vm_compute. reflexivity.
Defined.

Lemma one_collection_per_scene_three_scenes :
  labels_ok (label_js three_scenes) = true
  /\ snd (prepare_labels three_scenes [])
     = map (fun img =>
              (label_file img,
               JsonDump (feature_collection (crs_of (label_js three_scenes))
                           (scene_features three_scenes img))))
         (intersecting_images three_scenes)
  /\ (forall img,
        In img (intersecting_images three_scenes) ->
        (forall f, In f (raw_features (label_js three_scenes)) ->
                   hits (extent three_scenes img) f = false) ->
        In (label_file img,
            JsonDump (JDict [ ("type", JStr "FeatureCollection");
                              ("crs", crs_of (label_js three_scenes));
                              ("features", JList []) ]))
          (snd (prepare_labels three_scenes [])))
  /\ (NoDup (map label_basename (intersecting_images three_scenes)) ->
      NoDup (map fst (snd (prepare_labels three_scenes [])))
      /\ List.length (snd (prepare_labels three_scenes []))
         = List.length (intersecting_images three_scenes)).
Proof.
  split; [vm_compute; reflexivity|].
  apply (one_collection_per_scene three_scenes). vm_compute. reflexivity.
Defined.

End FloatWitnesses.

Section RationalWitnesses.
#[local] Existing Instance rational.
#[local] Existing Instance rational_boxes.

Lemma under_ratio_tenths :
  fis_zero (area (aoi tenths_exact)) = false
  /\ Forall (fun img => fle fzero (coverage tenths_exact img) = true)
       (intersecting_images tenths_exact)
  /\ flt (fractions_sum tenths_exact) ratio_literal = true
  /\ (exists s,
        split ratio_literal tenths_exact [] = (inr s, [])
        /\ train_imgs s = map snd (by_coverage tenths_exact)
        /\ Permutation (train_imgs s) (intersecting_images tenths_exact)
        /\ val_imgs s = [])
  /\ @fis_zero binary64 (@area binary64 float_boxes (aoi tenths)) = false
  /\ (forall j,
        j < List.length (@by_coverage binary64 float_boxes tenths) ->
        @flt binary64
          (total fzero (firstn j (@by_coverage binary64 float_boxes tenths)))
          ratio_literal = true)
  /\ exists s,
       @split binary64 float_boxes ratio_literal tenths [] = (inr s, [])
       /\ ((forall j,
              j < List.length (@by_coverage binary64 float_boxes tenths) ->
              @flt binary64
                (total fzero
                   (firstn j (@by_coverage binary64 float_boxes tenths)))
                ratio_literal = true)
           <-> val_imgs s = [])
       /\ (val_imgs s = [] ->
           train_imgs s = map snd (@by_coverage binary64 float_boxes tenths)
           /\ Permutation (train_imgs s)
                (@intersecting_images binary64 float_boxes tenths)).
Proof.
  assert (H : Forall (fun img => fle fzero (coverage tenths_exact img) = true)
                (intersecting_images tenths_exact)).
  { assert (E : intersecting_images tenths_exact
                = [mosaic "A.tif"; mosaic "B.tif"; mosaic "C.tif"])
      by (vm_compute; reflexivity).
    rewrite E. repeat (constructor; [vm_compute; reflexivity|]). constructor. }
  split; [vm_compute; reflexivity|]. split; [exact H|].
  split; [vm_compute; reflexivity|].
  split.
  { apply (proj1 (proj2 under_ratio_all_training) rational_boxes
             ratio_literal tenths_exact []); auto; vm_compute; reflexivity. }
  split; [vm_compute; reflexivity|].
  split.
  { assert (E : @by_coverage binary64 float_boxes tenths
                = [ (0x1.999999999999ap-4%float, mosaic "A.tif");
                    (0x1.999999999999ap-4%float, mosaic "B.tif");
                    (0x1.999999999999ap-4%float, mosaic "C.tif") ])
      by (vm_compute; reflexivity).
    rewrite E. intros [|[|[|j]]] Hj; try (vm_compute; reflexivity).
    cbn in Hj. lia. }
  apply (proj1 under_ratio_all_training binary64 float_boxes ratio_literal
           tenths []).
  vm_compute; reflexivity.
Defined.

End RationalWitnesses.

(** * Further properties of the notebook *)

(** X1.  The split is a cut of the walk order: training is the first [k]
    scenes and validation the rest, where [k] is the least number of scenes
    whose coverage adds up to the ratio or more (all of them if no prefix
    does).  So the sum before the last training scene is below the ratio,
    and the training sum overshoots it by less than that scene's
    coverage. *)
Theorem split_cuts_walk_at_threshold (N : Number) (G : Shapely N)
    (ratio : number) (I : Inputs) (fs : files) :
  fis_zero (area (aoi I)) = false ->
  exists s k,
    split ratio I fs = (inr s, fs)
    /\ k <= List.length (by_coverage I)
    /\ train_imgs s = map snd (firstn k (by_coverage I))
    /\ val_imgs s = map snd (skipn k (by_coverage I))
    /\ train_area_covered s = total fzero (firstn k (by_coverage I))
    /\ (forall j, j < k ->
                  flt (total fzero (firstn j (by_coverage I))) ratio = true)
    /\ (k < List.length (by_coverage I) ->
        flt (total fzero (firstn k (by_coverage I))) ratio = false).
Proof.
  intros Hz.
  destruct (greedy_walk_threshold ratio fzero (by_coverage I)) as (k & H).
  exists (greedy_walk ratio fzero (by_coverage I)), k.
  split; [|exact H]. rewrite split_run, Hz. reflexivity.
Qed.

(** X2.  No validation scene covers more of the AOI than a training
    scene. *)
Theorem training_outweighs_validation (N : Number) (G : Shapely N)
    (L : NumberLaws N) (ratio : number) (I : Inputs) (fs : files) :
  fis_zero (area (aoi I)) = false ->
  Forall (fun img => fle (coverage I img) (coverage I img) = true)
    (intersecting_images I) ->
  exists s,
    split ratio I fs = (inr s, fs)
    /\ forall t v,
         In t (train_imgs s) -> In v (val_imgs s) ->
         fle (coverage I v) (coverage I t) = true.
Proof.
  intros Hz Hord.
  destruct (greedy_walk_threshold ratio fzero (by_coverage I))
    as (k & _ & Ht & Hv & _).
  exists (greedy_walk ratio fzero (by_coverage I)). split.
  - rewrite split_run, Hz. reflexivity.
  - intros t v Hin_t Hin_v. rewrite Ht in Hin_t. rewrite Hv in Hin_v.
    apply in_map_iff in Hin_t as [[ct t'] [Et Hin_t]].
    apply in_map_iff in Hin_v as [[cv v'] [Ev Hin_v]].
    cbn in Et, Ev. subst t' v'.
    assert (Hs : StronglySorted descending (by_coverage I)).
    { unfold by_coverage. apply sort_reverse_descending.
      unfold ordered_keys. apply Forall_map. exact Hord. }
    rewrite <- (firstn_skipn k (by_coverage I)) in Hs.
    pose proof (StronglySorted_app_inv _ _ _ Hs _ _ Hin_t Hin_v) as Hd.
    unfold descending in Hd. cbn in Hd.
    assert (Hall : forall x,
               In x (firstn k (by_coverage I)) \/ In x (skipn k (by_coverage I)) ->
               In x (by_coverage I)).
    { intros x Hx. rewrite <- (firstn_skipn k (by_coverage I)).
      now apply in_or_app. }
    destruct (by_coverage_keys I ct t (Hall _ (or_introl Hin_t))) as [-> _].
    destruct (by_coverage_keys I cv v (Hall _ (or_intror Hin_v))) as [-> _].
    exact Hd.
Qed.

(** X3.  Where a scene meets the AOI, one of them covers at least as much
    as every other (coverages that are NaN apart), and with a positive
    ratio that scene is the first to train, wherever it stands in the
    listing; with a ratio that is not positive nothing trains and every
    scene goes to validation. *)
Theorem first_scene_trains_iff_ratio_positive (N : Number) (G : Shapely N)
    (L : NumberLaws N) (ratio : number) (I : Inputs) (fs : files) :
  fis_zero (area (aoi I)) = false ->
  Forall (fun img => fle (coverage I img) (coverage I img) = true)
    (intersecting_images I) ->
  is_nil (intersecting_images I) = false ->
  exists s top,
    split ratio I fs = (inr s, fs)
    /\ In top (intersecting_images I)
    /\ (forall img, In img (intersecting_images I) ->
                    fle (coverage I img) (coverage I top) = true)
    /\ (flt fzero ratio = true -> exists others, train_imgs s = top :: others)
    /\ (flt fzero ratio = false ->
        train_imgs s = [] /\ val_imgs s = map snd (by_coverage I)).
Proof.
  intros Hz Hord Hne.
  destruct (by_coverage_nonempty I Hne) as (c & scene & rest & Hfirst).
  destruct (by_coverage_keys I c scene) as [_ Hin]; [rewrite Hfirst; now left|].
  exists (greedy_walk ratio fzero (by_coverage I)), scene.
  split; [rewrite split_run, Hz; reflexivity|].
  split; [exact Hin|].
  split; [now apply (by_coverage_first I c scene rest)|].
  rewrite Hfirst. split.
  - intros Hr. cbn [greedy_walk]. rewrite Hr. cbn. eauto.
  - intros Hr. rewrite greedy_walk_full by auto. cbn. auto.
Qed.

(** ** Which scenes are selected *)

Section SelectionFacts.
Context {N : Number} {G : Shapely N}.
Implicit Types (I : Inputs) (img : string).

Lemma extents_fold_fresh I (l : list string) (d : dict geom) :
  NoDup l -> (forall img, In img l -> ~ In img (dict_keys d)) ->
  fold_left (fun d img => dict_set d img (bounds_to_shape (ds_bounds I img))) l d
  = d ++ map (fun img => (img, extent I img)) l.
Proof.
  revert d. induction l as [|img l IH]; cbn [fold_left map]; intros d Hn Hd.
  - now rewrite app_nil_r.
  - inversion Hn as [|? ? Hx Hn']; subst.
    rewrite dict_set_new by (apply Hd; now left).
    rewrite IH; auto.
    + now rewrite <- app_assoc.
    + intros x Hx' Hk. unfold dict_keys in Hk. rewrite map_app in Hk.
      apply in_app_or in Hk as [Hk|[<-|[]]]; auto.
      apply (Hd x); auto. now right.
Qed.

Lemma filter_extents I (l : list string) :
  dict_keys (filter (fun e => intersects (snd e) (aoi I))
               (map (fun img => (img, extent I img)) l))
  = filter (fun img => intersects (extent I img) (aoi I)) l.
Proof.
  unfold dict_keys. induction l as [|img l IH]; cbn; auto.
  destruct (intersects (extent I img) (aoi I)); cbn; now rewrite IH.
Qed.

(** X4.  A scene is selected exactly when it is listed and its bounding
    polygon intersects the AOI; it is selected once however often it is
    listed, and a listing without repetition is filtered in its order. *)
Theorem scenes_selected_in_listing_order I :
  (forall img,
      In img (intersecting_images I)
      <-> In img (image_files I) /\ intersects (extent I img) (aoi I) = true)
  /\ NoDup (intersecting_images I)
  /\ (NoDup (image_files I) ->
      intersecting_images I
      = filter (fun img => intersects (extent I img) (aoi I)) (image_files I)).
Proof.
  split; [apply intersecting_In|]. split; [apply intersecting_NoDup|].
  intros Hn. rewrite intersecting_images_filter. unfold image_to_extents.
  rewrite extents_fold_fresh; auto. apply filter_extents.
Qed.

(** X5.  [image_to_extents] has one entry per listed image, whatever the
    repetitions: looking up a listed image gives the closed ring of its
    bounds, looking up any other image raises [KeyError]. *)
Theorem extents_lookup I (fs : files) :
  (forall img,
      In img (image_files I) ->
      getitem (image_to_extents I) img fs
      = (inr (Polygon [ (left (ds_bounds I img), bottom (ds_bounds I img));
                        (left (ds_bounds I img), top (ds_bounds I img));
                        (right (ds_bounds I img), top (ds_bounds I img));
                        (right (ds_bounds I img), bottom (ds_bounds I img));
                        (left (ds_bounds I img), bottom (ds_bounds I img)) ]),
         fs))
  /\ (forall img,
        ~ In img (image_files I) ->
        getitem (image_to_extents I) img fs = (inl (KeyError img), fs))
  /\ NoDup (dict_keys (image_to_extents I))
  /\ (forall img, In img (dict_keys (image_to_extents I))
                  <-> In img (image_files I))
  /\ (NoDup (image_files I) ->
      dict_keys (image_to_extents I) = image_files I).
Proof.
  repeat split.
  - intros img Hin. unfold getitem. now rewrite extents_get.
  - intros img Hn. unfold getitem. rewrite dict_get_None; auto.
    intros Hk. now apply extents_keys in Hk.
  - apply extents_NoDup.
  - apply extents_keys.
  - apply extents_keys.
  - intros Hn. unfold image_to_extents. rewrite extents_fold_fresh; auto.
    unfold dict_keys. cbn [app]. rewrite map_map. cbn [fst]. apply map_id.
Qed.

End SelectionFacts.

(** ** What the label cells leave behind *)

Section QuietFacts.
Context {N : Number}.

Lemma quiet_ret {A} (a : A) : quiet (ret a).
Proof. intros fs. reflexivity. Qed.

Lemma quiet_raise {A} (e : exn) : quiet (@raise N A e).
Proof. intros fs. reflexivity. Qed.

Lemma quiet_bind {A B} (c : M A) (k : A -> M B) :
  quiet c -> (forall a, quiet (k a)) -> quiet (bind c k).
Proof.
  intros Hc Hk fs. unfold bind. rewrite (Hc fs), (Hc []).
  destruct (fst (c [])) as [e|a]; auto. apply Hk.
Qed.

Lemma quiet_for_each {A S} (l : list A) (body : A -> S -> M S) (s : S) :
  (forall x s, quiet (body x s)) -> quiet (for_each l body s).
Proof.
  intros Hb. revert s. induction l as [|x l IH]; intros s; cbn [for_each].
  - apply quiet_ret.
  - apply quiet_bind; auto.
Qed.

Lemma quiet_getitem {V} (d : dict V) (k : string) : quiet (getitem d k).
Proof.
  unfold getitem. destruct (dict_get d k); [apply quiet_ret|apply quiet_raise].
Qed.

Lemma quiet_json_getitem (j : json) (k : string) : quiet (json_getitem j k).
Proof.
  destruct j; cbn; try apply quiet_raise. apply quiet_getitem.
Qed.

Lemma quiet_json_setitem (j : json) (k : string) (v : json) :
  quiet (json_setitem j k v).
Proof. destruct j; cbn; try apply quiet_raise. apply quiet_ret. Qed.

Lemma quiet_json_iter (j : json) : quiet (json_iter j).
Proof. destruct j; cbn; try apply quiet_raise; apply quiet_ret. Qed.

Lemma bind_inr {A B} (c : M A) (k : A -> M B) fs b fs' :
  bind c k fs = (inr b, fs') ->
  exists a fs1, c fs = (inr a, fs1) /\ k a fs1 = (inr b, fs').
Proof.
  unfold bind. destruct (c fs) as [[e|a] fs1]; [discriminate|]. eauto.
Qed.

End QuietFacts.

Create HintDb quiet.

#[local] Hint Resolve quiet_ret quiet_raise quiet_getitem quiet_json_getitem
  quiet_json_setitem quiet_json_iter : quiet.

Section LabelOutcomes.
Context {N : Number} {G : Shapely N}.
Implicit Types (I : Inputs) (img : string) (fs : files).

Lemma quiet_add_class (feature : json) : quiet (add_class feature).
Proof.
  unfold add_class. repeat (apply quiet_bind; [auto with quiet|intros ?]).
  auto with quiet.
Qed.

Lemma quiet_add_classes (label_js : json) : quiet (add_classes label_js).
Proof.
  unfold add_classes.
  apply quiet_bind; [auto with quiet|intros features].
  apply quiet_bind; [auto with quiet|intros items].
  apply quiet_bind.
  - apply quiet_for_each. intros f done.
    apply quiet_bind; [apply quiet_add_class|intros ?; auto with quiet].
  - intros items'. destruct features; auto with quiet.
Qed.

Lemma quiet_match_features (label_js : json) (bbox : geom) img
    (d : dict (list json)) :
  quiet (match_features label_js bbox img d).
Proof.
  unfold match_features.
  apply quiet_bind; [auto with quiet|intros features].
  apply quiet_bind; [auto with quiet|intros items].
  apply quiet_for_each. intros f d'.
  apply quiet_bind; [auto with quiet|intros gj].
  destruct (shape gj) as [g|]; auto with quiet.
  destruct (intersects g bbox); auto with quiet.
  apply quiet_bind; [auto with quiet|intros ?; auto with quiet].
Qed.

Lemma quiet_image_to_features I (label_js : json) :
  quiet (image_to_features I label_js).
Proof.
  unfold image_to_features. apply quiet_for_each. intros img d. cbv zeta.
  apply quiet_bind; [auto with quiet|intros bbox].
  apply quiet_match_features.
Qed.

Lemma match_items_keys (bbox : geom) img (items : list json)
    (d d' : dict (list json)) fs fs' :
  for_each items
    (fun feature image_to_features =>
       geometry <- json_getitem feature "geometry" ;;
       match shape geometry with
       | None => raise ShapeError
       | Some g =>
           if intersects g bbox then
             found <- getitem image_to_features img ;;
             ret (dict_set image_to_features img (found ++ [feature]))
           else ret image_to_features
       end)
    d fs = (inr d', fs') ->
  dict_keys d' = dict_keys d.
Proof.
  revert d fs. induction items as [|f items IH]; intros d fs; cbn [for_each].
  - now intros [= -> _].
  - intros H. apply bind_inr in H as (d1 & fs1 & Hbody & Hrest).
    apply IH in Hrest. rewrite Hrest. clear Hrest IH.
    apply bind_inr in Hbody as (gj & fs2 & _ & Hbody).
    destruct (shape gj) as [g|]; [|discriminate].
    destruct (intersects g bbox).
    + apply bind_inr in Hbody as (found & fs3 & Hget & Hret).
      injection Hret as <- _. unfold getitem in Hget.
      destruct (dict_get d img) eqn:E; [|discriminate].
      rewrite dict_keys_set.
      destruct (in_dec string_dec img (dict_keys d)) as [|Hn]; auto.
      exfalso. apply Hn. eapply dict_get_keys; eauto.
    + now injection Hbody as <- _.
Qed.

Lemma image_to_features_keys I (label_js : json) (l : list string)
    (d d' : dict (list json)) fs fs' :
  NoDup l -> (forall img, In img l -> ~ In img (dict_keys d)) ->
  for_each l
    (fun img image_to_features =>
       let image_to_features := dict_set image_to_features img [] in
       bbox <- getitem (image_to_extents I) img ;;
       match_features label_js bbox img image_to_features)
    d fs = (inr d', fs') ->
  dict_keys d' = dict_keys d ++ l.
Proof.
  revert d fs. induction l as [|img l IH]; intros d fs Hn Hd; cbn [for_each].
  - intros [= -> _]. now rewrite app_nil_r.
  - inversion Hn as [|? ? Hx Hn']; subst.
    intros H. apply bind_inr in H as (d1 & fs1 & Hbody & Hrest).
    cbv zeta in Hbody.
    apply bind_inr in Hbody as (bbox & fs2 & _ & Hbody).
    unfold match_features in Hbody.
    apply bind_inr in Hbody as (features & fs3 & _ & Hbody).
    apply bind_inr in Hbody as (items & fs4 & _ & Hbody).
    apply match_items_keys in Hbody.
    rewrite dict_keys_set in Hbody.
    destruct (in_dec string_dec img (dict_keys d)) as [Hi|_].
    { exfalso. apply (Hd img); auto. now left. }
    apply IH in Hrest; auto.
    + rewrite Hrest, Hbody, <- app_assoc. reflexivity.
    + intros x Hx' Hk. rewrite Hbody in Hk.
      apply in_app_or in Hk as [Hk|[<-|[]]]; auto.
      apply (Hd x); auto. now right.
Qed.

End LabelOutcomes.

(** ** Errors of the label cells *)

Section LabelErrors.
Context {N : Number} {G : Shapely N}.
Implicit Types (I : Inputs) (img : string) (fs : files).

Lemma add_class_outcome (feature : json) fs :
  add_class feature fs
  = match injection_error feature with
    | None => (inr (classed feature), fs)
    | Some e => (inl e, fs)
    end.
Proof.
  destruct feature as [| | | | | |fd]; try reflexivity. cbn.
  destruct (dict_get fd "properties") as [[| | | | | |props]|] eqn:Hp;
    unfold add_class, bind, json_getitem, json_setitem, getitem, ret, raise;
    rewrite Hp; try reflexivity.
  now rewrite dict_get_set_same, dict_set_set.
Qed.

Lemma add_classes_loop_stops (pre post done : list json) (f : json) e fs :
  Forall (fun f => injection_error f = None) pre ->
  injection_error f = Some e ->
  for_each (pre ++ f :: post)
    (fun feature done => feature <- add_class feature ;; ret (done ++ [feature]))
    done fs
  = (inl e, fs).
Proof.
  intros Hpre Hf. revert done.
  induction Hpre as [|g pre Hg Hpre IH]; intros done; cbn [app for_each].
  - unfold bind at 1. unfold bind at 1. now rewrite add_class_outcome, Hf.
  - unfold bind at 1. unfold bind at 1. rewrite add_class_outcome, Hg.
    unfold ret at 1. apply IH.
Qed.

(** X7.  The injection loop raises at the first feature it cannot take:
    [KeyError] for a feature without properties, [TypeError] for one that is
    no object or whose properties are none; a label file without features
    raises [KeyError].  The run ends there with no file written. *)
Theorem injection_stops_at_first_bad_feature :
  (forall (feature : json) fs,
      add_class feature fs
      = match injection_error feature with
        | None => (inr (classed feature), fs)
        | Some e => (inl e, fs)
        end)
  /\ (forall I d pre f post e,
        label_js I = JDict d ->
        dict_get d "features" = Some (JList (pre ++ f :: post)) ->
        Forall (fun f => injection_error f = None) pre ->
        injection_error f = Some e ->
        notebook I [] = (inl e, []))
  /\ (forall I d,
        label_js I = JDict d -> dict_get d "features" = None ->
        notebook I [] = (inl (KeyError "features"), [])).
Proof.
  split; [apply add_class_outcome|]. split.
  - intros I d pre f post e Hd Hf Hpre He.
    unfold notebook, prepare_labels. unfold bind at 1. unfold bind at 1.
    rewrite Hd. unfold add_classes. unfold bind at 1.
    unfold json_getitem, getitem. rewrite Hf. unfold ret at 1.
    unfold bind at 1. unfold json_iter, ret at 1. unfold bind at 1.
    now rewrite (add_classes_loop_stops pre post [] f e).
  - intros I d Hd Hf.
    unfold notebook, prepare_labels. unfold bind at 1. unfold bind at 1.
    rewrite Hd. unfold add_classes. unfold bind at 1.
    unfold json_getitem, getitem. now rewrite Hf.
Qed.

(** X8.  A label file without [crs] goes unnoticed when no scene meets the
    AOI; otherwise the writing cell raises [KeyError] at the first scene,
    before it has written any file. *)
Theorem missing_crs_raises_before_writing I d raw :
  label_js I = JDict d ->
  dict_get d "features" = Some (JList raw) ->
  forallb feature_ok raw = true ->
  dict_get d "crs" = None ->
  prepare_labels I []
  = if is_nil (intersecting_images I) then (inr [], [])
    else (inl (KeyError "crs"), []).
Proof.
  intros Hd Hf Hraw Hc. unfold prepare_labels. rewrite Hd.
  unfold bind at 1. rewrite (add_classes_run d raw) by auto.
  unfold bind at 1. unfold image_to_features.
  rewrite (image_to_features_loop I _ (map classed raw)).
  - cbn [app]. destruct (intersecting_images I) as [|img l]; cbn [map is_nil].
    + reflexivity.
    + unfold bind at 1. unfold write_labels. cbn [for_each].
      unfold bind at 1. unfold bind at 1. unfold json_getitem, getitem.
      rewrite dict_get_set_other by discriminate. now rewrite Hc.
  - apply dict_get_set_same.
  - rewrite forallb_forall in *. intros f Hin.
    apply in_map_iff in Hin as [f0 [<- Hin]]. apply readable_classed; auto.
  - auto.
  - apply intersecting_NoDup.
  - intros ? ? [].
Qed.

(** X9.  When the AOI has no area and a scene meets it, the run ends in
    the split cell with [ZeroDivisionError]: the label files are written by
    then, and neither scene list is. *)
Theorem zero_area_leaves_labels_without_lists I :
  labels_ok (label_js I) = true ->
  fis_zero (area (aoi I)) = true ->
  is_nil (intersecting_images I) = false ->
  notebook I []
  = (inl ZeroDivisionError,
     map (fun img =>
            (label_file img,
             JsonDump (feature_collection (crs_of (label_js I))
                         (scene_features I img))))
       (intersecting_images I)).
Proof.
  intros Hok Hz Hn. unfold notebook.
  unfold bind at 1. rewrite (prepare_labels_run I [] Hok). cbn [app].
  unfold bind at 1. now rewrite split_run, Hz, Hn.
Qed.


End LabelErrors.

(** ** Names of the files *)

Section NameFacts.

Lemma rfind_append (c : ascii) (a b : string) :
  rfind c (a ++ b)
  = match rfind c b with
    | Some i => Some (String.length a + i)
    | None => rfind c a
    end.
Proof.
  induction a as [|x a IH]; cbn [append rfind String.length].
  - destruct (rfind c b); reflexivity.
  - rewrite IH. destruct (rfind c b); reflexivity.
Qed.

Lemma rfind_none_substring (c : ascii) (q : string) (n m : nat) :
  rfind c q = None -> rfind c (substring n m q) = None.
Proof.
  revert n m. induction q as [|a q IH]; intros n m; cbn [rfind].
  - destruct n, m; reflexivity.
  - destruct (rfind c q) eqn:E; [discriminate|].
    destruct (Ascii.eqb a c) eqn:Ea; [discriminate|]. intros _.
    destruct n as [|n]; [destruct m as [|m]|]; cbn [substring rfind]; auto.
    now rewrite IH, Ea.
Qed.

Lemma rfind_lt (c : ascii) (s : string) (i : nat) :
  rfind c s = Some i -> i < String.length s.
Proof.
  revert i. induction s as [|a s IH]; intros i; cbn [rfind String.length].
  - discriminate.
  - destruct (rfind c s) as [j|].
    + intros [= <-]. specialize (IH j eq_refl). lia.
    + destruct (Ascii.eqb a c); [intros [= <-]; lia|discriminate].
Qed.

Lemma string_from_append (a b : string) (n : nat) :
  string_from (String.length a + n) (a ++ b) = string_from n b.
Proof.
  unfold string_from. rewrite length_append.
  replace (String.length a + String.length b - (String.length a + n))
    with (String.length b - n) by lia.
  induction a as [|x a IH]; cbn [append String.length Nat.add substring]; auto.
Qed.

Lemma string_from_S (a : ascii) (s : string) (n : nat) :
  string_from (S n) (String a s) = string_from n s.
Proof. reflexivity. Qed.

Lemma string_from_0 (s : string) : string_from 0 s = s.
Proof. unfold string_from. rewrite Nat.sub_0_r. apply substring_all. Qed.

Lemma substring_split (s : string) (n : nat) :
  n <= String.length s -> (substring 0 n s ++ string_from n s)%string = s.
Proof.
  revert n. induction s as [|a s IH]; intros [|n] Hn; cbn in Hn; try lia.
  - reflexivity.
  - cbn [substring append]. now rewrite string_from_0.
  - cbn [substring append]. rewrite string_from_S. f_equal. apply IH. lia.
Qed.

(** The name after the last slash is the basename, whatever stands before
    that slash. *)
Lemma basename_append (a k : string) :
  basename (a ++ "/" ++ k) = basename k.
Proof.
  unfold basename. rewrite rfind_append.
  cbn [append rfind]. destruct (rfind "/" k) as [i|] eqn:E.
  - replace (S (String.length a + S i)) with (String.length a + S (S i)) by lia.
    rewrite string_from_append. reflexivity.
  - cbn [Ascii.eqb Bool.eqb].
    replace (S (String.length a + 0)) with (String.length a + 1) by lia.
    rewrite string_from_append, string_from_S. apply string_from_0.
Qed.

Lemma basename_plain (k : string) : rfind "/" k = None -> basename k = k.
Proof. unfold basename. now intros ->. Qed.

Lemma label_basename_no_slash (img : string) :
  rfind "/" (label_basename img) = None.
Proof.
  unfold label_basename. pose proof (basename_no_slash img) as H.
  set (q := basename img) in *. unfold splitext.
  destruct (rfind "." q) as [dot|]; auto.
  match goal with |- context [if ?c then _ else _] => destruct c end; auto.
  now apply rfind_none_substring.
Qed.

Lemma label_name_no_slash (img : string) :
  rfind "/" (label_basename img ++ ".geojson") = None.
Proof. rewrite rfind_append. cbn. apply label_basename_no_slash. Qed.

Lemma labels_path_eq (img : string) :
  labels_path img
  = (target_label_prefix ++ "/" ++ label_basename img ++ ".geojson")%string.
Proof.
  unfold labels_path, path_join. now rewrite label_name_not_absolute.
Qed.

(** X11.  Joining never drops the directory: the label file of a scene
    lies directly in [processed_labels_dir], the label locator of its row
    directly under [target_label_prefix], and both have the same file
    name, the scene's basename with [.geojson], which holds no slash. *)
Theorem label_file_and_row_share_name (img : string) :
  rfind "/" (label_basename img ++ ".geojson") = None
  /\ label_file img
     = (processed_labels_dir ++ label_basename img ++ ".geojson")%string
  /\ labels_path img
     = (target_label_prefix ++ "/" ++ label_basename img ++ ".geojson")%string
  /\ basename (label_file img) = (label_basename img ++ ".geojson")%string
  /\ basename (labels_path img) = (label_basename img ++ ".geojson")%string
  /\ csv_rows [img]
     = [ (dquote ++ img ++ dquote ++ "," ++ dquote ++ labels_path img
          ++ dquote)%string ].
Proof.
  pose proof (label_name_no_slash img) as Hn.
  repeat split; auto using label_file_eq, labels_path_eq.
  - rewrite label_file_eq.
    change (processed_labels_dir ++ label_basename img ++ ".geojson")%string
      with ("/opt/data/spacenet/rio/processed_labels" ++ "/"
            ++ (label_basename img ++ ".geojson"))%string.
    rewrite basename_append. now apply basename_plain.
  - rewrite labels_path_eq, basename_append. now apply basename_plain.
Qed.

Lemma rfind_cut (c : ascii) (s : string) (i : nat) :
  rfind c s = Some i ->
  substring 0 (S i) s = (substring 0 i s ++ String c "")%string
  /\ string_from i s = String c (string_from (S i) s)
  /\ rfind c (string_from (S i) s) = None.
Proof.
  revert i. induction s as [|a s IH]; intros i; cbn [rfind]; [discriminate|].
  destruct (rfind c s) as [j|] eqn:E.
  - intros [= <-]. destruct (IH j eq_refl) as (H1 & H2 & H3).
    rewrite !string_from_S. repeat split; auto.
    cbn [substring append]. f_equal. exact H1.
  - destruct (Ascii.eqb a c) eqn:Ea; [|discriminate]. intros [= <-].
    apply Ascii.eqb_eq in Ea. subst a.
    rewrite string_from_S, !string_from_0. repeat split; auto.
    destruct s; reflexivity.
Qed.

Lemma append_empty (s : string) : (s ++ "")%string = s.
Proof. induction s; cbn; congruence. Qed.

Lemma append_assoc (a b c : string) :
  ((a ++ b) ++ c)%string = (a ++ b ++ c)%string.
Proof. induction a; cbn; congruence. Qed.

Lemma substring_append (a b : string) :
  substring 0 (String.length a) (a ++ b) = a.
Proof.
  induction a as [|x a IH]; cbn [String.length append substring].
  - destruct b; reflexivity.
  - now rewrite IH.
Qed.

(** A name that ends in a dot and an extension loses both, when something
    other than dots stands before that dot. *)
Lemma label_basename_extension (stem e : string) :
  rfind "/" stem = None ->
  existsb (fun c => negb (Ascii.eqb c ".")) (list_ascii_of_string stem) = true ->
  rfind "." e = None -> rfind "/" e = None ->
  label_basename (stem ++ "." ++ e) = stem.
Proof.
  intros Hstem Hname Hdot Hslash.
  assert (Hs : rfind "/" (stem ++ "." ++ e) = None).
  { rewrite rfind_append. cbn [append rfind]. now rewrite Hslash. }
  assert (Hd : rfind "." (stem ++ "." ++ e) = Some (String.length stem + 0)).
  { rewrite rfind_append. cbn [append rfind]. now rewrite Hdot. }
  unfold label_basename. rewrite (basename_plain _ Hs).
  unfold splitext. rewrite Hd, Hs. cbn [Nat.leb andb].
  rewrite Nat.add_0_r, Nat.sub_0_r, substring_append, Hname.
  reflexivity.
Qed.

Lemma label_basename_no_extension (stem : string) :
  rfind "/" stem = None -> rfind "." stem = None -> label_basename stem = stem.
Proof.
  intros Hs Hd. unfold label_basename. rewrite (basename_plain _ Hs).
  unfold splitext. now rewrite Hd.
Qed.

Lemma label_basename_append (dir k : string) :
  label_basename (dir ++ "/" ++ k) = label_basename k.
Proof. unfold label_basename. now rewrite basename_append. Qed.

(** X12.  The name a scene's label file gets is the locator without its
    directories and without its last extension.  Every locator is a
    directory part that is empty or ends in a slash, then the name, which
    holds no slash, then an extension that is empty or a dot followed by
    neither dot nor slash.  A locator that ends in a name, a dot and an
    extension gets that name, the dot and the extension removed, in a
    directory or not, provided the name holds something other than dots;
    only the last extension goes, as the name may hold dots itself.  A
    locator whose last component has no dot gets that component. *)
Theorem label_basename_strips_directory_and_extension :
  (forall img : string,
      exists dir ext,
        img = (dir ++ label_basename img ++ ext)%string
        /\ (dir = "" \/ exists d, dir = (d ++ "/")%string)
        /\ rfind "/" (label_basename img) = None
        /\ (ext = ""
            \/ exists e, ext = String "." e
                         /\ rfind "." e = None /\ rfind "/" e = None))
  /\ (forall dir stem e : string,
        rfind "/" stem = None ->
        existsb (fun c => negb (Ascii.eqb c "."))
          (list_ascii_of_string stem) = true ->
        rfind "." e = None -> rfind "/" e = None ->
        label_basename (dir ++ "/" ++ stem ++ "." ++ e) = stem
        /\ label_basename (stem ++ "." ++ e) = stem)
  /\ (forall dir stem : string,
        rfind "/" stem = None -> rfind "." stem = None ->
        label_basename (dir ++ "/" ++ stem) = stem
        /\ label_basename stem = stem).
Proof.
  split; [|split].
  2:{ intros dir stem e Hstem Hname Hdot Hslash.
      rewrite label_basename_append. split; now apply label_basename_extension. }
  2:{ intros dir stem Hs Hd.
      rewrite label_basename_append.
      split; now apply label_basename_no_extension. }
  intros img.
  assert (Hdir : exists dir,
             img = (dir ++ basename img)%string
             /\ (dir = "" \/ exists d, dir = (d ++ "/")%string)).
  { unfold basename. destruct (rfind "/" img) as [i|] eqn:E.
    - exists (substring 0 (S i) img). split.
      + symmetry. apply substring_split. apply rfind_lt in E. lia.
      + right. exists (substring 0 i img). now apply rfind_cut.
    - exists "". auto. }
  destruct Hdir as (dir & Himg & Hdir).
  pose proof (basename_no_slash img) as Hq.
  pose proof (label_basename_no_slash img) as Hroot.
  unfold label_basename in *. set (q := basename img) in *.
  assert (Hext : exists ext,
             q = (fst (splitext q) ++ ext)%string
             /\ (ext = ""
                 \/ exists e, ext = String "." e
                              /\ rfind "." e = None /\ rfind "/" e = None)).
  { unfold splitext. destruct (rfind "." q) as [dot|] eqn:E.
    - match goal with |- context [if ?c then _ else _] => destruct c end.
      + exists (string_from dot q). cbn [fst]. split.
        * symmetry. apply substring_split. apply rfind_lt in E. lia.
        * right. destruct (rfind_cut _ _ _ E) as (_ & H2 & H3).
          exists (string_from (S dot) q). repeat split; auto.
          unfold string_from. now apply rfind_none_substring.
      + exists "". cbn [fst]. now rewrite append_empty; auto.
    - exists "". cbn [fst]. now rewrite append_empty; auto. }
  destruct Hext as (ext & Hq' & Hext).
  exists dir, ext. repeat split; auto.
  rewrite Himg at 1. now rewrite Hq' at 1.
Qed.

(** X13.  The listing cell gives distinct keys distinct locators, and the
    label name of a locator is that of its key: the bucket and the
    [s3://] scheme do not enter the names of the files. *)
Theorem listing_keeps_keys_apart (bucket : string) (keys : list string) :
  (NoDup keys -> NoDup (list_image_files bucket keys))
  /\ (forall key, label_basename (s3_uri bucket key) = label_basename key)
  /\ map label_file (list_image_files bucket keys) = map label_file keys.
Proof.
  assert (Hb : forall key,
             label_basename (s3_uri bucket key) = label_basename key).
  { intros key. unfold label_basename, s3_uri.
    change ("s3://" ++ bucket ++ "/" ++ key)%string
      with (("s3://" ++ bucket) ++ "/" ++ key)%string.
    now rewrite basename_append. }
  repeat split; auto.
  - unfold list_image_files. induction 1 as [|k l Hk Hl IH]; cbn [map].
    + constructor.
    + constructor; auto. intros Hin. apply Hk.
      apply in_map_iff in Hin as [k' [Heq Hin]].
      unfold s3_uri in Heq. apply append_inv_head in Heq.
      apply append_inv_head in Heq.
      change ("/" ++ k')%string with (String "/" k') in Heq.
      change ("/" ++ k)%string with (String "/" k) in Heq.
      now injection Heq as <-.
  - unfold list_image_files. rewrite map_map. apply map_ext. intros key.
    apply label_file_inj, Hb.
Qed.

End NameFacts.

(** ** Running the injection cell again *)

Section InjectionAgain.
Context {N : Number}.

Lemma dict_set_present {V} (d : dict V) (k : string) (v : V) :
  dict_get d k = Some v -> dict_set d k v = d.
Proof.
  induction d as [|[k0 v0] d IH]; cbn; [discriminate|].
  destruct (String.eqb k0 k) eqn:E.
  - now intros [= ->].
  - intros H. now rewrite IH.
Qed.

Lemma classed_twice (feature : json) : classed (classed feature) = classed feature.
Proof.
  destruct feature as [| | | | | |fd]; try reflexivity. cbn.
  destruct (dict_get fd "properties") as [[| | | | | |props]|] eqn:Hp;
    cbn; rewrite ?Hp; try reflexivity.
  rewrite dict_get_set_same, dict_set_set. do 2 f_equal. f_equal.
  rewrite (dict_set_present _ "class_id").
  - apply dict_set_present, dict_get_set_same.
  - rewrite dict_get_set_other by discriminate. apply dict_get_set_same.
Qed.

Lemma classed_injectable (feature : json) :
  injection_error feature = None -> injection_error (classed feature) = None.
Proof.
  destruct feature as [| | | | | |fd]; try discriminate. cbn.
  destruct (dict_get fd "properties") as [[| | | | | |props]|] eqn:Hp;
    try discriminate.
  intros _. cbn. now rewrite dict_get_set_same.
Qed.

Lemma add_classes_loop_inv (items done done' : list json) fs fs' :
  for_each items
    (fun feature done => feature <- add_class feature ;; ret (done ++ [feature]))
    done fs
  = (inr done', fs') ->
  Forall (fun f => injection_error f = None) items
  /\ done' = done ++ map classed items.
Proof.
  revert done fs. induction items as [|f items IH]; intros done fs;
    cbn [for_each map].
  - intros [= <- _]. now rewrite app_nil_r.
  - intros H. apply bind_inr in H as (d1 & fs1 & Hbody & Hrest).
    apply bind_inr in Hbody as (f' & fs2 & Hf & Hret).
    rewrite add_class_outcome in Hf.
    destruct (injection_error f) eqn:E; [discriminate|].
    injection Hf as <- <-. injection Hret as <- <-.
    apply IH in Hrest as [Hall ->]. split; [now constructor|].
    now rewrite <- app_assoc.
Qed.

Lemma add_classes_loop_ok (items done : list json) fs :
  Forall (fun f => injection_error f = None) items ->
  for_each items
    (fun feature done => feature <- add_class feature ;; ret (done ++ [feature]))
    done fs
  = (inr (done ++ map classed items), fs).
Proof.
  intros H. revert done.
  induction H as [|f items Hf H IH]; intros done; cbn [for_each map].
  - now rewrite app_nil_r.
  - unfold bind at 1. unfold bind at 1. rewrite add_class_outcome, Hf.
    unfold ret at 1. rewrite IH. now rewrite <- app_assoc.
Qed.

(** X14.  Once the injection cell has run, running it again changes
    nothing: it returns the label file it was given. *)
Theorem injection_again_changes_nothing (label_js label_js' : json) fs fs' :
  add_classes label_js fs = (inr label_js', fs') ->
  add_classes label_js' fs' = (inr label_js', fs').
Proof.
  intros H. pose proof H as H0. unfold add_classes in H.
  apply bind_inr in H as (features & fs1 & Hget & H).
  apply bind_inr in H as (items & fs2 & Hiter & H).
  apply bind_inr in H as (items' & fs3 & Hloop & H).
  apply add_classes_loop_inv in Hloop as Hinv. destruct Hinv as [Hall ->].
  destruct label_js as [| | | | | |d]; try discriminate.
  cbn in Hget. unfold getitem in Hget.
  destruct (dict_get d "features") as [v|] eqn:Hf; [|discriminate].
  injection Hget as <- <-.
  assert (Hfs : fs' = fs).
  { pose proof (quiet_add_classes (JDict d) fs) as Hq. rewrite H0 in Hq.
    now injection Hq as _ ->. }
  subst fs'.
  destruct v as [| | | |str|l|dd]; try discriminate.
  - (* a string: nothing was iterated *)
    injection H as <- _. exact H0.
  - (* a list *)
    injection Hiter as <- <-. cbn in H. injection H as <- _.
    unfold add_classes. unfold bind at 1.
    cbn [json_getitem]. unfold getitem. rewrite dict_get_set_same.
    unfold ret at 1. unfold bind at 1. cbn [json_iter]. unfold ret at 1.
    unfold bind at 1. rewrite add_classes_loop_ok.
    + cbn [app json_setitem]. unfold ret.
      rewrite dict_set_set, map_map.
      rewrite (map_ext _ classed) by apply classed_twice. reflexivity.
    + apply Forall_map. eapply Forall_impl; [|exact Hall].
      intros f. apply classed_injectable.
  - (* a dict: nothing was iterated *)
    injection H as <- _. exact H0.
Qed.

End InjectionAgain.

(** ** Geometries that cannot be read *)

Section GeometryErrors.
Context {N : Number} {G : Shapely N}.
Implicit Types (I : Inputs) (img : string) (fs : files).

Lemma for_each_app {A S} (l1 l2 : list A) (body : A -> S -> M S) (s : S) fs :
  for_each (l1 ++ l2) body s fs
  = bind (for_each l1 body s) (for_each l2 body) fs.
Proof.
  revert s fs. induction l1 as [|x l1 IH]; intros s fs; cbn [app for_each].
  - reflexivity.
  - unfold bind. destruct (body x s fs) as [[e|s1] fs1]; auto.
Qed.

Lemma geometry_error_classed (feature : json) :
  geometry_error (classed feature) = geometry_error feature
  \/ injection_error feature <> None.
Proof.
  destruct feature as [| | | | | |fd]; auto. cbn.
  destruct (dict_get fd "properties") as [[| | | | | |props]|]; auto.
  left. cbn. now rewrite dict_get_set_other by discriminate.
Qed.

Lemma readable_iff (feature : json) :
  readable feature = true <-> geometry_error feature = None.
Proof.
  destruct feature as [| | | | | |fd]; cbn; try (split; discriminate).
  destruct (dict_get fd "geometry") as [gj|]; [|split; discriminate].
  destruct (shape gj); split; auto; discriminate.
Qed.

(** X15.  With a scene that meets the AOI, the matching cell raises at the
    first feature whose geometry it cannot read: [KeyError] when the
    feature has none, [ShapeError] when shapely rejects it.  No file is
    written. *)
Theorem unreadable_geometry_raises_before_writing I d pre f post e :
  label_js I = JDict d ->
  dict_get d "features" = Some (JList (pre ++ f :: post)) ->
  Forall (fun f => injection_error f = None) (pre ++ f :: post) ->
  Forall (fun f => geometry_error f = None) pre ->
  geometry_error f = Some e ->
  is_nil (intersecting_images I) = false ->
  prepare_labels I [] = (inl e, []).
Proof.
  intros Hd Hf Hinj Hpre He Hn. unfold prepare_labels. rewrite Hd.
  unfold bind at 1. unfold add_classes. unfold bind at 1.
  unfold json_getitem at 1. unfold getitem at 1. rewrite Hf. unfold ret at 1.
  unfold bind at 1. unfold json_iter at 1. unfold ret at 1.
  unfold bind at 1. rewrite add_classes_loop_ok by auto.
  cbn [app json_setitem]. unfold ret at 1.
  unfold bind at 1. unfold image_to_features.
  pose proof (intersecting_extent I) as Hext.
  destruct (intersecting_images I) as [|img l]; [discriminate|].
  cbn [for_each]. unfold bind at 1. cbv zeta. unfold bind at 1.
  unfold getitem at 1. rewrite Hext by (now left). unfold ret at 1.
  unfold match_features. unfold bind at 1.
  unfold json_getitem at 1. unfold getitem at 1. rewrite dict_get_set_same.
  unfold ret at 1. unfold bind at 1. unfold json_iter at 1. unfold ret at 1.
  rewrite map_app. cbn [map dict_set].
  rewrite for_each_app. unfold bind at 1.
  assert (Hok : forallb readable (map classed pre) = true).
  { apply forallb_forall. intros f' Hin.
    apply in_map_iff in Hin as [f0 [<- Hin]]. apply readable_iff.
    apply Forall_app in Hinj as [Hinj _]. rewrite Forall_forall in Hinj, Hpre.
    destruct (geometry_error_classed f0) as [Hg|Hg].
    - rewrite Hg. auto.
    - exfalso. apply Hg. auto. }
  pose proof (match_features_loop (extent I img) img [] [] (map classed pre) []
                (fun H => H) Hok) as Hm.
  cbn [app] in Hm. rewrite Hm. clear Hm.
  cbn [for_each]. unfold bind at 1. unfold bind at 1.
  apply Forall_app in Hinj as [_ Hinj].
  inversion Hinj as [|? ? Hfi _]; subst.
  destruct (geometry_error_classed f) as [Hg|Hg]; [|contradiction].
  rewrite <- Hg in He. clear Hg.
  destruct (classed f) as [| | | | | |fd]; cbn in He;
    try (injection He as <-; reflexivity).
  unfold json_getitem, getitem.
  destruct (dict_get fd "geometry") as [gj|];
    [|injection He as <-; reflexivity].
  unfold ret at 1. destruct (shape gj); [discriminate|].
  now injection He as <-.
Qed.

End GeometryErrors.

(** ** Label files that cannot be opened *)

Section RefusedWrites.
Context {N : Number} {G : Shapely N}.
Implicit Types (I : Inputs) (img : string) (fs : files).
Implicit Types (writable : string -> bool).

Lemma for_each_ext {A S} (l : list A) (b1 b2 : A -> S -> M S) (s : S) fs :
  (forall x, In x l -> forall s fs, b1 x s fs = b2 x s fs) ->
  for_each l b1 s fs = for_each l b2 s fs.
Proof.
  revert s fs. induction l as [|x l IH]; intros s fs Hb; cbn [for_each]; auto.
  unfold bind. rewrite (Hb x) by (now left).
  destruct (b2 x s fs) as [[e|s1] fs1]; auto.
  apply IH. intros y Hy. apply Hb. now right.
Qed.

(** Where every path is accepted the writing cell is the one of the run. *)
Lemma write_labels_on_accepted writable (lj : json) (d : dict (list json)) fs :
  (forall entry, In entry d -> writable (label_file (fst entry)) = true) ->
  write_labels_on writable lj d fs = write_labels lj d fs.
Proof.
  intros H. unfold write_labels_on, write_labels. apply for_each_ext.
  intros entry Hin s fs0. unfold bind.
  destruct (json_getitem lj "crs" fs0) as [[e|crs] fs1]; auto.
  unfold open_write. now rewrite (H entry Hin).
Qed.

(** The writing cell ends at the first path that is refused and leaves the
    files written before it. *)
Lemma write_labels_on_refused writable (d : list (string * json)) (crs : json)
    (before after : dict (list json)) (entry : string * list json) fs :
  dict_get d "crs" = Some crs ->
  (forall e, In e before -> writable (label_file (fst e)) = true) ->
  writable (label_file (fst entry)) = false ->
  write_labels_on writable (JDict d) (before ++ entry :: after) fs
  = (inl OSError,
     fs ++ map (fun e => (label_file (fst e),
                          JsonDump (feature_collection crs (snd e))))
             before).
Proof.
  intros Hc Hb He.
  pose proof (write_labels_on_accepted writable (JDict d) before fs Hb) as Hacc.
  rewrite (write_labels_run d crs) in Hacc by auto.
  unfold write_labels_on in *. rewrite for_each_app. unfold bind at 1.
  rewrite Hacc. cbn [for_each]. unfold bind at 1. unfold bind at 1.
  unfold json_getitem at 1. unfold getitem at 1. rewrite Hc. unfold ret at 1.
  unfold open_write at 1. rewrite He. reflexivity.
Qed.

Lemma prepare_labels_on_accepted writable I fs :
  (forall img, In img (intersecting_images I) ->
               writable (label_file img) = true) ->
  prepare_labels_on writable I fs = prepare_labels I fs.
Proof.
  intros H. unfold prepare_labels_on, prepare_labels. unfold bind.
  destruct (add_classes (label_js I) fs) as [[e|lj] fs1]; auto.
  destruct (image_to_features I lj fs1) as [[e|d] fs2] eqn:Hd; auto.
  rewrite write_labels_on_accepted; auto.
  intros entry Hin. apply H.
  unfold image_to_features in Hd.
  apply image_to_features_keys in Hd; auto using intersecting_NoDup.
  cbn [dict_keys map app] in Hd. rewrite <- Hd.
  unfold dict_keys. now apply in_map.
Qed.

(** An error of the label cells' own comes before the first file is
    opened, so it is the same on every file system and leaves no file. *)
Lemma prepare_labels_own_error I fs (e : exn) fs' :
  prepare_labels I fs = (inl e, fs') ->
  fs' = fs /\ forall writable, prepare_labels_on writable I fs = (inl e, fs).
Proof.
  intros H.
  pose proof (quiet_add_classes (label_js I) fs) as Ha.
  destruct (fst (add_classes (label_js I) [])) as [e0|lj].
  { unfold prepare_labels in H. unfold bind at 1 in H. rewrite Ha in H.
    injection H as <- <-. split; auto. intros writable.
    unfold prepare_labels_on. unfold bind at 1. now rewrite Ha. }
  pose proof (quiet_image_to_features I lj fs) as Hi.
  destruct (fst (image_to_features I lj [])) as [e0|d] eqn:Hd.
  { unfold prepare_labels in H. unfold bind at 1 in H. rewrite Ha in H.
    unfold bind at 1 in H. rewrite Hi in H.
    injection H as <- <-. split; auto. intros writable.
    unfold prepare_labels_on. unfold bind at 1. rewrite Ha.
    unfold bind at 1. now rewrite Hi. }
  assert (Hrun : prepare_labels I fs
                 = match write_labels lj d fs with
                   | (inr _, fs') => (inr d, fs')
                   | (inl e, fs') => (inl e, fs')
                   end).
  { unfold prepare_labels. unfold bind at 1. rewrite Ha.
    unfold bind at 1. rewrite Hi. reflexivity. }
  assert (Hrun' : forall writable,
             prepare_labels_on writable I fs
             = match write_labels_on writable lj d fs with
               | (inr _, fs') => (inr d, fs')
               | (inl e, fs') => (inl e, fs')
               end).
  { intros writable. unfold prepare_labels_on. unfold bind at 1. rewrite Ha.
    unfold bind at 1. rewrite Hi. reflexivity. }
  rewrite Hrun in H. clear Hrun Ha Hi Hd.
  pose proof (quiet_json_getitem lj "crs" fs) as Hcrs.
  destruct (fst (json_getitem lj "crs" [])) as [ec|crs] eqn:Hc.
  - destruct d as [|entry d]; [discriminate|].
    unfold write_labels in H. cbn [for_each] in H.
    unfold bind at 1 in H. unfold bind at 1 in H. rewrite Hcrs in H.
    injection H as <- <-. split; auto. intros writable.
    rewrite Hrun'. unfold write_labels_on. cbn [for_each].
    unfold bind at 1. unfold bind at 1. now rewrite Hcrs.
  - exfalso. destruct lj as [| | | | | |ld]; try discriminate.
    cbn [json_getitem] in Hc. unfold getitem in Hc.
    destruct (dict_get ld "crs") as [crs'|] eqn:Hg; [|discriminate].
    rewrite (write_labels_run ld crs') in H by auto. discriminate.
Qed.

Lemma prepare_labels_on_refused writable I fs
    (before after : list string) img :
  labels_ok (label_js I) = true ->
  intersecting_images I = before ++ img :: after ->
  (forall i, In i before -> writable (label_file i) = true) ->
  writable (label_file img) = false ->
  prepare_labels_on writable I fs
  = (inl OSError,
     fs ++ map (fun i =>
                  (label_file i,
                   JsonDump (feature_collection (crs_of (label_js I))
                               (scene_features I i))))
             before).
Proof.
  intros Hok Hsplit Hb He. unfold scene_features, prepare_labels_on.
  destruct (labels_ok_inv _ Hok) as (d & raw & crs & Hd & Hf & Hc & Hraw).
  rewrite Hd. cbn [raw_features crs_of]. rewrite Hf, Hc.
  unfold bind at 1. rewrite (add_classes_run d raw) by auto.
  unfold bind at 1. unfold image_to_features.
  rewrite (image_to_features_loop I _ (map classed raw)).
  - cbn [app]. unfold bind at 1. rewrite Hsplit, map_app. cbn [map].
    rewrite (write_labels_on_refused writable _ crs).
    + now rewrite map_map.
    + now rewrite dict_get_set_other.
    + intros e Hin. apply in_map_iff in Hin as [i [<- Hi]]. cbn [fst]. auto.
    + exact He.
  - apply dict_get_set_same.
  - rewrite forallb_forall in *. intros f Hin.
    apply in_map_iff in Hin as [f0 [<- Hin]]. apply readable_classed; auto.
  - auto.
  - apply intersecting_NoDup.
  - intros ? ? [].
Qed.

(** X6.  [open] can refuse a label file.  Where it refuses none, the label
    cells do what they do in the run.  An error of their own (a missing
    key, a value of the wrong type, a geometry shapely rejects) is raised
    before the first file is opened: no file is written, whatever the
    file system.  Where the label file of a scene is refused, the cells
    end there with [OSError]: the files of the scenes before it, written
    in full, stay, and no later scene gets a file. *)
Theorem refused_label_file_ends_run I fs :
  (forall writable,
      (forall img, In img (intersecting_images I) ->
                   writable (label_file img) = true) ->
      prepare_labels_on writable I fs = prepare_labels I fs)
  /\ (forall (e : exn) fs',
        prepare_labels I fs = (inl e, fs') ->
        fs' = fs
        /\ forall writable, prepare_labels_on writable I fs = (inl e, fs))
  /\ (forall writable (before after : list string) img,
        labels_ok (label_js I) = true ->
        intersecting_images I = before ++ img :: after ->
        (forall i, In i before -> writable (label_file i) = true) ->
        writable (label_file img) = false ->
        prepare_labels_on writable I fs
        = (inl OSError,
           fs ++ map (fun i =>
                        (label_file i,
                         JsonDump (feature_collection (crs_of (label_js I))
                                     (scene_features I i))))
                   before)).
Proof.
  split; [|split].
  - intros writable. apply prepare_labels_on_accepted.
  - apply prepare_labels_own_error.
  - intros writable before after img. apply prepare_labels_on_refused.
Qed.

End RefusedWrites.

(** ** The further properties at concrete runs *)

Section MoreFloatWitnesses.
#[local] Existing Instance binary64.
#[local] Existing Instance float_boxes.

Lemma split_cuts_three_scenes :
  fis_zero (area (aoi three_scenes)) = false
  /\ exists s k,
       split ratio_literal three_scenes [] = (inr s, [])
       /\ k <= List.length (by_coverage three_scenes)
       /\ train_imgs s = map snd (firstn k (by_coverage three_scenes))
       /\ val_imgs s = map snd (skipn k (by_coverage three_scenes))
       /\ train_area_covered s
          = total fzero (firstn k (by_coverage three_scenes))
       /\ (forall j, j < k ->
                     flt (total fzero (firstn j (by_coverage three_scenes)))
                       ratio_literal = true)
       /\ (k < List.length (by_coverage three_scenes) ->
           flt (total fzero (firstn k (by_coverage three_scenes)))
             ratio_literal = false).
Proof.
  split; [vm_compute; reflexivity|].
  apply (split_cuts_walk_at_threshold binary64 float_boxes ratio_literal
           three_scenes []).
  vm_compute. reflexivity.
Defined.

Lemma training_outweighs_validation_three_scenes :
  fis_zero (area (aoi three_scenes)) = false
  /\ Forall (fun img => fle (coverage three_scenes img)
                          (coverage three_scenes img) = true)
       (intersecting_images three_scenes)
  /\ exists s,
       split ratio_literal three_scenes [] = (inr s, [])
       /\ forall t v,
            In t (train_imgs s) -> In v (val_imgs s) ->
            fle (coverage three_scenes v) (coverage three_scenes t) = true.
Proof.
  assert (H : Forall (fun img => fle (coverage three_scenes img)
                                   (coverage three_scenes img) = true)
                (intersecting_images three_scenes)).
  { assert (E : intersecting_images three_scenes
                = [mosaic "A.tif"; mosaic "B.tif"; mosaic "C.tif"])
      by (vm_compute; reflexivity).
    rewrite E. repeat (constructor; [vm_compute; reflexivity|]). constructor. }
  split; [vm_compute; reflexivity|]. split; [exact H|].
  apply (training_outweighs_validation binary64 float_boxes binary64_laws
           ratio_literal three_scenes []);
    [vm_compute; reflexivity|exact H].
Defined.

Lemma first_scene_trains_listed_backwards :
  fis_zero (area (aoi three_scenes_backwards)) = false
  /\ Forall (fun img => fle (coverage three_scenes_backwards img)
                          (coverage three_scenes_backwards img) = true)
       (intersecting_images three_scenes_backwards)
  /\ intersecting_images three_scenes_backwards
     = [mosaic "C.tif"; mosaic "B.tif"; mosaic "A.tif"]
  /\ exists s top,
       split ratio_literal three_scenes_backwards [] = (inr s, [])
       /\ In top (intersecting_images three_scenes_backwards)
       /\ (forall img,
             In img (intersecting_images three_scenes_backwards) ->
             fle (coverage three_scenes_backwards img)
               (coverage three_scenes_backwards top) = true)
       /\ (flt fzero ratio_literal = true ->
           exists others, train_imgs s = top :: others)
       /\ (flt fzero ratio_literal = false ->
           train_imgs s = []
           /\ val_imgs s = map snd (by_coverage three_scenes_backwards)).
Proof.
  assert (E : intersecting_images three_scenes_backwards
              = [mosaic "C.tif"; mosaic "B.tif"; mosaic "A.tif"])
    by (vm_compute; reflexivity).
  assert (H : Forall (fun img => fle (coverage three_scenes_backwards img)
                                   (coverage three_scenes_backwards img) = true)
                (intersecting_images three_scenes_backwards)).
  { rewrite E. repeat (constructor; [vm_compute; reflexivity|]). constructor. }
  split; [vm_compute; reflexivity|]. split; [exact H|]. split; [exact E|].
  apply (first_scene_trains_iff_ratio_positive binary64 float_boxes
           binary64_laws ratio_literal three_scenes_backwards []);
    [vm_compute; reflexivity|exact H|vm_compute; reflexivity].
Defined.

Lemma bad_feature_stops_run :
  injection_error
    (JDict [("type", JStr "Feature"); ("geometry", (polygon_json 4 4 6 6)%float)])
  = Some (KeyError "properties")
  /\ notebook labels_missing_properties [] = (inl (KeyError "properties"), []).
Proof.
  split; [reflexivity|].
  eapply (proj1 (proj2 (@injection_stops_at_first_bad_feature binary64
                          float_boxes))
            labels_missing_properties _ [_] _ [_] (KeyError "properties")).
  - reflexivity.
  - reflexivity.
  - repeat constructor.
  - reflexivity.
Defined.

Lemma missing_crs_one_scene :
  is_nil (intersecting_images labels_without_crs) = false
  /\ prepare_labels labels_without_crs []
     = if is_nil (intersecting_images labels_without_crs) then (inr [], [])
       else (inl (KeyError "crs"), []).
Proof.
  split; [vm_compute; reflexivity|].
  eapply (missing_crs_raises_before_writing labels_without_crs _ _);
    reflexivity.
Defined.

Lemma zero_area_flat_region :
  labels_ok (label_js flat_region) = true
  /\ fis_zero (area (aoi flat_region)) = true
  /\ is_nil (intersecting_images flat_region) = false
  /\ notebook flat_region []
     = (inl ZeroDivisionError,
        map (fun img =>
               (label_file img,
                JsonDump (feature_collection (crs_of (label_js flat_region))
                            (scene_features flat_region img))))
          (intersecting_images flat_region)).
Proof.
  do 3 (split; [vm_compute; reflexivity|]).
  apply (zero_area_leaves_labels_without_lists flat_region);
    vm_compute; reflexivity.
Defined.


Lemma injection_again_rio_labels :
  exists label_js',
    add_classes rio_labels [] = (inr label_js', [])
    /\ add_classes label_js' [] = (inr label_js', []).
Proof.
  eexists. split.
  - vm_compute. reflexivity.
  - apply (injection_again_changes_nothing rio_labels _ [] []).
    vm_compute. reflexivity.
Defined.

Lemma missing_geometry_one_scene :
  geometry_error (JDict [("type", JStr "Feature"); ("properties", JDict [])])
  = Some (KeyError "geometry")
  /\ is_nil (intersecting_images labels_missing_geometry) = false
  /\ prepare_labels labels_missing_geometry []
     = (inl (KeyError "geometry"), []).
Proof.
  split; [reflexivity|]. split; [vm_compute; reflexivity|].
  eapply (unreadable_geometry_raises_before_writing labels_missing_geometry
            _ [_] _ [] (KeyError "geometry")).
  - reflexivity.
  - reflexivity.
  - repeat constructor.
  - repeat constructor.
  - reflexivity.
  - vm_compute. reflexivity.
Defined.

Lemma refused_second_label_file :
  labels_ok (label_js three_scenes) = true
  /\ intersecting_images three_scenes
     = [mosaic "A.tif"] ++ mosaic "B.tif" :: [mosaic "C.tif"]
  /\ all_but (label_file (mosaic "B.tif")) (label_file (mosaic "A.tif")) = true
  /\ all_but (label_file (mosaic "B.tif")) (label_file (mosaic "B.tif")) = false
  /\ prepare_labels_on (all_but (label_file (mosaic "B.tif"))) three_scenes []
     = (inl OSError,
        [] ++ map (fun i =>
                     (label_file i,
                      JsonDump (feature_collection
                                  (crs_of (label_js three_scenes))
                                  (scene_features three_scenes i))))
                [mosaic "A.tif"]).
Proof.
  do 4 (split; [vm_compute; reflexivity|]).
  apply (proj2 (proj2 (refused_label_file_ends_run three_scenes []))
           (all_but (label_file (mosaic "B.tif")))
           [mosaic "A.tif"] [mosaic "C.tif"] (mosaic "B.tif")).
  - vm_compute; reflexivity.
  - vm_compute; reflexivity.
  - intros i [<-|[]]. vm_compute; reflexivity.
  - vm_compute; reflexivity.
Defined.

Lemma label_basename_of_mosaic :
  (rfind "/" "A" = None
   /\ existsb (fun c => negb (Ascii.eqb c ".")) (list_ascii_of_string "A")
      = true
   /\ rfind "." "tif" = None /\ rfind "/" "tif" = None)
  /\ label_basename (mosaic "A.tif") = "A"
  /\ label_basename "A.tif" = "A".
Proof.
  split; [repeat split; reflexivity|].
  apply (proj1 (proj2 label_basename_strips_directory_and_extension)
           "s3://spacenet-dataset/AOI_1_Rio/srcData/mosaic_3band" "A" "tif");
    reflexivity.
Defined.

End MoreFloatWitnesses.
